(** * pgtyped query actions: placeholder desugaring, type probe, type resolver

    A shallow embedding of [packages/query/src/actions.ts]:
    [desugarQuery], [runQuery], [getTypeData] and [getTypes], together with
    the properties of the type-resolution pipeline that are established
    about them.

    JavaScript strings are embedded as [string]; the only characters the
    code inspects are the colon and the ASCII class [\w], so the byte view
    and the UTF-16 view of a text agree on every match.  JavaScript objects
    that are used as dictionaries are finite maps from property names to
    values. *)

From Stdlib Require Import Ascii String ZArith Lia.
From stdpp Require Import gmap strings list fin_maps pretty.

Local Open Scope string_scope.
Local Open Scope Z_scope.

(** ** JavaScript values *)

Module Js.

(** The values that flow through the resolver.  Numbers are the integral
    identifiers delivered by the wire codec (OIDs, attribute numbers). *)
Inductive value : Type :=
| undefined
| boolean (b : bool)
| number (n : Z)
| str (s : string).

#[global] Instance value_eq_dec : EqDecision value.
Proof. solve_decision. Defined.

(** [ToString], as applied by template literals, by [Array.prototype.join]
    on defined elements, and by computed property keys.  Integers print in
    decimal, which is what JavaScript does below 10^21; OIDs and attribute
    numbers are far below. *)
Definition toString (v : value) : string :=
  match v with
  | undefined => "undefined"
  | boolean true => "true"
  | boolean false => "false"
  | number n => pretty n
  | str s => s
  end.

(** A plain object used as a dictionary: its own properties by name.  The
    prototype of such an object is [Object.prototype]; the keys the resolver
    reads ([ToString] of a number, or two numbers around a colon) name none
    of its properties, so a read finds an own property or [undefined]. *)
Abbreviation object := (gmap string value).

(** [o[k]]: a missing property reads as [undefined]. *)
Definition get (o : object) (k : value) : value :=
  default undefined (o !! toString k).

(** [o[k] = v], and the computed property [{ ...o, [k]: v }]. *)
Definition set (o : object) (k : value) (v : value) : object :=
  <[toString k := v]> o.

(** The assignment [o[k] = v] on an object whose prototype is
    [Object.prototype].  An own property is created or overwritten, except
    under the name [__proto__]: that name reaches the setter inherited from
    the prototype, which ignores a value that is neither an object nor
    null, as every [value] is, and the object stays as it was.  (A computed
    property of an object literal, [set], defines an own property under
    that name too.) *)
Definition assign (o : object) (k : value) (v : value) : object :=
  if decide (toString k = "__proto__") then o else <[toString k := v]> o.

(** [{ ...a, ...b }]: the properties of [b] win. *)
Definition spread (a b : object) : object := b ∪ a.

(** [xs[i]] on an array: out of range reads as [undefined]. *)
Definition index {A} (inj : A → value) (xs : list A) (i : nat) : value :=
  from_option inj undefined (xs !! i).

(** [Array.prototype.join] on an array of strings. *)
Fixpoint join (sep : string) (xs : list string) : string :=
  match xs with
  | [] => ""
  | [x] => x
  | x :: rest => x +:+ sep +:+ join sep rest
  end.

End Js.

(** ** The placeholder desugarer *)

Definition is_colon (c : ascii) : bool := Ascii.eqb c ":"%char.

(** The character class [\w] of a regular expression without the unicode
    or ignore-case flags: [A-Za-z0-9_]. *)
Definition is_word (c : ascii) : bool :=
  let n := N_of_ascii c in
  ((65 <=? n) && (n <=? 90) || (97 <=? n) && (n <=? 122)
   || (48 <=? n) && (n <=? 57) || (n =? 95))%N.

Section Replace.

(** The state captured and mutated by the replacer callback. *)
Context {St : Type}.

(** The callback receives the whole match and the first capture group. *)
Variable replacer : string → string → St → string * St.

(** [s.replace(placeholderRegex, replacer)], where [placeholderRegex] is
    a colon followed by a greedy, possibly empty, captured run of word
    characters, with the global flag.  The engine looks for the leftmost
    colon, extends the capture greedily over word characters, calls the
    replacer, and resumes right after the match. *)
Fixpoint replace_placeholderRegex (s : string) (st : St) {struct s}
  : string * St :=
  match s with
  | EmptyString => (EmptyString, st)
  | String c rest =>
      if is_colon c then
        (fix capture (p1 : string) (r : string) {struct r} : string * St :=
           match r with
           | EmptyString => replacer (":" +:+ p1) p1 st
           | String d r' =>
               if is_word d then capture (p1 +:+ String d EmptyString) r'
               else
                 let '(replacement, st1) := replacer (":" +:+ p1) p1 st in
                 let '(out, st2) := replace_placeholderRegex r st1 in
                 (replacement +:+ out, st2)
           end) EmptyString rest
      else
        let '(out, st1) := replace_placeholderRegex rest st in
        (String c out, st1)
  end.

End Replace.

Record Desugared : Type := {
  desugaredQuery : string;
  paramNames : list string
}.

(** The replacer of [desugarQuery]: push the captured name, answer with the
    positional marker numbered by the new length of [paramNames]. *)
Definition placeholderReplacer (_ paramName : string) (names : list string)
  : string * list string :=
  let names := (names ++ [paramName])%list in
  ("$" +:+ Js.toString (Js.number (Z.of_nat (List.length names))), names).

Definition desugarQuery (query : string) : Desugared :=
  let '(text, names) :=
    replace_placeholderRegex placeholderReplacer query [] in
  {| desugaredQuery := text; paramNames := names |}.

(** ** Wire messages *)

(** Modelled from the spec: [PreparedObjectType] of the wire package, the
    target of a Describe or Close. *)
Inductive PreparedObjectType : Type := Portal | Statement.

Record Field : Type := {
  name : string;
  tableOID : Z;
  columnAttrNumber : Z;
  typeOID : Z;
  typeSize : Z;
  typeModifier : Z;
  formatCode : Z
}.

Record Param : Type := { oid : Z }.

(** Modelled from the spec: a column of a decoded data row; [value] is the
    buffer holding its text. *)
Record Column : Type := { value : string }.

(** [Buffer.prototype.toString] on a buffer that holds text. *)
Definition Buffer_toString (b : string) : string := b.

(** Modelled from the spec: the message kinds of the wire package
    ([messages.*]), which is not part of the sources at hand.  Outbound
    kinds are Startup, SimpleQuery, Parse, Describe, Close and Flush; Bind,
    Execute and Sync are the remaining extended-query requests of the
    protocol, present so that their absence from a trace says something. *)
Inductive ClientMessage : Type :=
| SendStartup (params : list (string * string))
| SendQuery (query : string)
| SendParse (name query : string) (dataTypes : list Z)
| SendDescribe (name : string) (type : PreparedObjectType)
| SendClose (target : PreparedObjectType) (targetName : string)
| SendFlush
| SendBind (portal statement : string)
| SendExecute (portal : string)
| SendSync.

Module messages.

(** Modelled from the spec: the inbound message kinds that [reply] can be
    asked to wait for. *)
Inductive kind : Type :=
| readyForQuery
| rowDescription
| dataRow
| commandComplete
| errorResponse
| parseComplete
| parameterDescription
| noData
| closeComplete.

#[global] Instance kind_eq_dec : EqDecision kind.
Proof. solve_decision. Defined.

End messages.

(** Modelled from the spec: the decoded inbound messages.  The fields of an
    error response are a dictionary keyed by the one-letter field tags of
    the protocol, which is how the code reads them ([R], [H], [M], [P]). *)
Inductive ServerMessage : Type :=
| ReadyForQuery
| RowDescription (fields : list Field)
| DataRow (columns : list Column)
| CommandComplete (commandTag : string)
| ErrorResponse (fields : gmap string string)
| ParseComplete
| ParameterDescription (params : list Param)
| NoData
| CloseComplete.

Definition kind_of (m : ServerMessage) : messages.kind :=
  match m with
  | ReadyForQuery => messages.readyForQuery
  | RowDescription _ => messages.rowDescription
  | DataRow _ => messages.dataRow
  | CommandComplete _ => messages.commandComplete
  | ErrorResponse _ => messages.errorResponse
  | ParseComplete => messages.parseComplete
  | ParameterDescription _ => messages.parameterDescription
  | NoData => messages.noData
  | CloseComplete => messages.closeComplete
  end.

(** ** The protocol sequencer *)

(** One call on the queue, as it appears in the trace of a connection. *)
Inductive Call : Type :=
| send (m : ClientMessage)
| reply (expected : list messages.kind).

(** Modelled from the spec: the [AsyncQueue] of the wire package, reduced
    to what the sequencer promises.  [inbound] is the script of messages the
    peer will deliver, in order; [calls] records every [send] and every
    [reply] issued so far, oldest first. *)
Record AsyncQueue : Type := {
  inbound : list ServerMessage;
  calls : list Call
}.

Inductive Error : Type :=
| Desync (got : ServerMessage) (expected : list messages.kind)
| TypeError.

(** How an awaited promise ends: it resolves, it rejects, or it stays
    pending for ever because the awaited message never arrives. *)
Inductive Outcome (A : Type) : Type :=
| Resolved (a : A)
| Rejected (e : Error)
| Pending.

Arguments Resolved {A} a.
Arguments Rejected {A} e.
Arguments Pending {A}.

Definition Promise (A : Type) : Type := AsyncQueue → Outcome A * AsyncQueue.

Definition resolve {A} (a : A) : Promise A := λ q, (Resolved a, q).
Definition reject {A} (e : Error) : Promise A := λ q, (Rejected e, q).
Definition pending {A} : Promise A := λ q, (Pending, q).

Definition andThen {A B} (p : Promise A) (k : A → Promise B) : Promise B :=
  λ q, match p q with
       | (Resolved a, q') => k a q'
       | (Rejected e, q') => (Rejected e, q')
       | (Pending, q') => (Pending, q')
       end.

#[global] Instance Promise_ret : MRet Promise := @resolve.
#[global] Instance Promise_bind : MBind Promise := λ A B k p, andThen p k.

Definition logged (c : Call) (q : AsyncQueue) : AsyncQueue :=
  {| inbound := inbound q; calls := (calls q ++ [c])%list |}.

(** Modelled from the spec: [queue.send(kind, payload)] hands one message
    over and waits for nothing. *)
Definition queue_send (m : ClientMessage) : Promise unit :=
  λ q, (Resolved tt, logged (send m) q).

(** Modelled from the spec: [queue.reply(...kinds)] gives the next inbound
    message, which must be of one of the expected kinds; anything else is a
    fatal desync, and without a next message the caller stays blocked. *)
Definition queue_reply (expected : list messages.kind) : Promise ServerMessage :=
  λ q, let q' := logged (reply expected) q in
       match inbound q with
       | [] => (Pending, q')
       | m :: rest =>
           if bool_decide (kind_of m ∈ expected)
           then (Resolved m, {| inbound := rest; calls := calls q' |})
           else (Rejected (Desync m expected), q')
       end.

(** The number of inbound messages still to come: a bound on how many
    replies can still resolve, used only to bound the loop of [runQuery]. *)
Definition backlog : Promise nat := λ q, (Resolved (List.length (inbound q)), q).

(** ** The simple query executor *)

Definition has_commandTag (m : ServerMessage) : bool :=
  match m with CommandComplete _ => true | _ => false end.

Definition columns_of (m : ServerMessage) : option (list Column) :=
  match m with DataRow cs => Some cs | _ => None end.

(** The [while (true)] loop of [runQuery].  Each round consumes one inbound
    message, so [fuel] rounds are enough once [fuel] exceeds the backlog. *)
Fixpoint runQuery_loop (fuel : nat) (resultRows : list (list string))
  : Promise (list (list string)) :=
  match fuel with
  | O => pending
  | S fuel =>
      result ← queue_reply [messages.dataRow; messages.commandComplete];
      if has_commandTag result then resolve resultRows
      else
        match columns_of result with
        | None => reject TypeError
        | Some columns =>
            let row := map (λ c, Buffer_toString (value c)) columns in
            runQuery_loop fuel (resultRows ++ [row])%list
        end
  end.

Definition runQuery (query : string) : Promise (list (list string)) :=
  queue_send (SendQuery query);;
  _result ← queue_reply [messages.rowDescription];
  n ← backlog;
  runQuery_loop (S n) [].

(** ** The type probe *)

(** [undefined] fields are [None]. *)
Record ParseError : Type := {
  errorCode : option string;
  hint : option string;
  message : option string;
  position : option string
}.

Record Described : Type := {
  params : list Param;
  fields : list Field
}.

(** [TypeData]: the described statement, or the parse error. *)
Definition TypeData : Type := Described + ParseError.

Definition getTypeData (query name : string) : Promise TypeData :=
  (* Send all the messages needed and then flush *)
  queue_send (SendParse name query []);;
  queue_send (SendDescribe name Statement);;
  queue_send (SendClose Statement name);;
  queue_send SendFlush;;
  parseResult ← queue_reply [messages.errorResponse; messages.parseComplete];
  match parseResult with
  | ErrorResponse errorFields =>
      (* Error case *)
      mret (inr {| errorCode := errorFields !! "R";
                   hint := errorFields !! "H";
                   message := errorFields !! "M";
                   position := errorFields !! "P" |})
  | _ =>
      paramsResult ← queue_reply [messages.parameterDescription; messages.noData];
      let params :=
        match paramsResult with ParameterDescription ps => ps | _ => [] end in
      fieldsResult ← queue_reply [messages.rowDescription; messages.noData];
      let fields :=
        match fieldsResult with RowDescription fs => fs | _ => [] end in
      queue_reply [messages.closeComplete];;
      mret (inl {| params := params; fields := fields |})
  end.

(** ** The type resolver *)

Record TQueryTypes : Type := {
  paramTypes : Js.object;
  returnTypes : list Js.object
}.

Definition typeQuery (usedTypesOIDs : list Z) : string :=
  "select oid, typname from pg_type where oid in ("
  +:+ Js.join "," (map (λ n, Js.toString (Js.number n)) usedTypesOIDs)
  +:+ ")".

(** [typeRows.reduce((acc, [oid, typeName]) => ({ ...acc, [oid]: typeName }), {})] *)
Definition typeMap_of (typeRows : list (list string)) : Js.object :=
  fold_left
    (λ acc row, Js.set acc (Js.index Js.str row 0) (Js.index Js.str row 1))
    typeRows ∅.

Definition attrMatcher (f : Field) : string :=
  "(attrelid = " +:+ Js.toString (Js.number (tableOID f))
  +:+ " and attnum = " +:+ Js.toString (Js.number (columnAttrNumber f))
  +:+ ")".

Definition attrSelection (fields : list Field) : Js.value :=
  if (0 <? List.length fields)%nat
  then Js.str (Js.join " or " (map attrMatcher fields))
  else Js.boolean false.

Definition attributeQuery (attrSelection : Js.value) : string :=
  "select
      (attrelid || ':' || attnum) as attid, attname, attnotnull
     from pg_attribute where " +:+ Js.toString attrSelection +:+ ";".

(** The object [{ columnName: attname, nullable: attnotnull !== 't' }]. *)
Definition attrInfo (attname attnotnull : Js.value) : Js.object :=
  Js.set (Js.set ∅ (Js.str "columnName") attname)
         (Js.str "nullable")
         (Js.boolean (bool_decide (attnotnull ≠ Js.str "t"))).

(** [attributeRows.reduce((acc, [attid, attname, attnotnull]) =>
      ({ ...acc, [attid]: { columnName, nullable } }), {})] *)
Definition attrMap_of (attributeRows : list (list string))
  : gmap string Js.object :=
  fold_left
    (λ acc row,
       <[Js.toString (Js.index Js.str row 0) :=
           attrInfo (Js.index Js.str row 1) (Js.index Js.str row 2)]> acc)
    attributeRows ∅.

Definition attrKey (f : Field) : string :=
  Js.toString (Js.number (tableOID f)) +:+ ":"
  +:+ Js.toString (Js.number (columnAttrNumber f)).

(** One element of [returnTypes]: the attribute information, when there is
    any, spread under [returnName] and [typeName]. *)
Definition returnType (attrMap : gmap string Js.object) (typeMap : Js.object)
    (f : Field) : Js.object :=
  Js.set
    (Js.set (Js.spread ∅ (default ∅ (attrMap !! attrKey f)))
            (Js.str "returnName") (Js.str (name f)))
    (Js.str "typeName") (Js.get typeMap (Js.number (typeOID f))).

(** [xs.forEach((x, index) => ...)] with the state the callback mutates. *)
Fixpoint forEach {A St : Type} (f : A → nat → St → St) (xs : list A)
    (index : nat) (st : St) : St :=
  match xs with
  | [] => st
  | x :: rest => forEach f rest (S index) (f x index st)
  end.

(** The callback of [params.forEach]: write the type of [param] under the
    name recorded at its index. *)
Definition recordParamType (paramNames : list string) (typeMap : Js.object)
    (param : Param) (index : nat) (paramTypes : Js.object) : Js.object :=
  let paramName := Js.index Js.str paramNames index in
  let paramType := Js.get typeMap (Js.number (oid param)) in
  Js.assign paramTypes paramName paramType.

Definition paramTypes_of (paramNames : list string) (typeMap : Js.object)
    (params : list Param) : Js.object :=
  forEach (recordParamType paramNames typeMap) params 0%nat ∅.

Definition getTypes (query name : string) : Promise (TQueryTypes + ParseError) :=
  let '{| desugaredQuery := desugaredQuery; paramNames := paramNames |} :=
    desugarQuery query in
  typeData ← getTypeData desugaredQuery name;
  match typeData with
  | inr parseError => mret (inr parseError)
  | inl {| params := params; fields := fields |} =>
      let paramTypeOIDs := map oid params in
      let returnTypesOIDs := map typeOID fields in
      let usedTypesOIDs := (paramTypeOIDs ++ returnTypesOIDs)%list in
      typeRows ← runQuery (typeQuery usedTypesOIDs);
      let typeMap := typeMap_of typeRows in
      attributeRows ← runQuery (attributeQuery (attrSelection fields));
      let attrMap := attrMap_of attributeRows in
      let returnTypes := map (returnType attrMap typeMap) fields in
      let paramTypes := paramTypes_of paramNames typeMap params in
      mret (inl {| paramTypes := paramTypes; returnTypes := returnTypes |})
  end.


(** * Specification-level notions *)

(** ** What a scan of the query text is

    The decomposition of a text into the pieces a left-to-right scan for
    "a colon followed by zero or more identifier characters" goes through:
    plain characters, and placeholders with their (possibly empty) name. *)

Inductive Token : Type :=
| Text (c : ascii)
| Placeholder (paramName : string).

Fixpoint all_word (w : string) : bool :=
  match w with
  | EmptyString => true
  | String c w' => is_word c && all_word w'
  end.

Definition starts_with_word (s : string) : bool :=
  match s with
  | EmptyString => false
  | String c _ => is_word c
  end.

(** [Scans s ts]: every colon of [s] opens a placeholder, whose name is the
    longest run of identifier characters that follows it. *)
Inductive Scans : string → list Token → Prop :=
| Scans_end : Scans "" []
| Scans_text c s ts :
    is_colon c = false → Scans s ts → Scans (String c s) (Text c :: ts)
| Scans_placeholder w s ts :
    all_word w = true → starts_with_word s = false → Scans s ts →
    Scans (String ":" (w +:+ s)) (Placeholder w :: ts).

(** The text in which the placeholders, in order of appearance, are
    replaced by the positional markers numbered from [k]. *)
Fixpoint positional (k : nat) (ts : list Token) : string :=
  match ts with
  | [] => ""
  | Text c :: ts' => String c (positional k ts')
  | Placeholder _ :: ts' =>
      ("$" +:+ pretty (Z.of_nat k)) +:+ positional (S k) ts'
  end.

(** The names of the placeholders, in order of appearance, repeats kept. *)
Fixpoint names_of (ts : list Token) : list string :=
  match ts with
  | [] => []
  | Text _ :: ts' => names_of ts'
  | Placeholder n :: ts' => n :: names_of ts'
  end.

(** How many positional markers [positional] writes. *)
Fixpoint markers (ts : list Token) : nat :=
  match ts with
  | [] => 0
  | Text _ :: ts' => markers ts'
  | Placeholder _ :: ts' => S (markers ts')
  end.

(** The greedy run of identifier characters at the head of a text, and
    what follows it. *)
Fixpoint span_word (s : string) : string * string :=
  match s with
  | EmptyString => ("", "")
  | String c r =>
      if is_word c then let '(w, r') := span_word r in (String c w, r')
      else ("", s)
  end.

(** ** What the probe exchanges *)

(** The batch the probe sends before it awaits anything. *)
Definition probeSends (query name : string) : list Call :=
  [send (SendParse name query []);
   send (SendDescribe name Statement);
   send (SendClose Statement name);
   send SendFlush].

(** The replies the probe awaits, in order. *)
Definition probeAwaits : list Call :=
  [reply [messages.errorResponse; messages.parseComplete];
   reply [messages.parameterDescription; messages.noData];
   reply [messages.rowDescription; messages.noData];
   reply [messages.closeComplete]].

(** The replies after which the probe goes on to its next await:
    parse-complete, then a parameter description or no-data, then a row
    description or no-data. *)
Definition probeContinues : list (list messages.kind) :=
  [[messages.parseComplete];
   [messages.parameterDescription; messages.noData];
   [messages.rowDescription; messages.noData]].

(** How many of the inbound messages, taken in turn, are of the kinds
    listed stage by stage. *)
Fixpoint answeredInTurn (stages : list (list messages.kind))
    (inbound : list ServerMessage) : nat :=
  match stages, inbound with
  | stage :: stages', m :: inbound' =>
      if bool_decide (kind_of m ∈ stage)
      then S (answeredInTurn stages' inbound')
      else 0
  | _, _ => 0
  end.

(** How many awaits the probe is to issue against the given replies: the
    first in any case, and one more after each reply that lets it go on. *)
Definition awaitsIssued (inbound : list ServerMessage) : nat :=
  S (answeredInTurn probeContinues inbound).

(** The await of the loop of [runQuery]. *)
Definition awaitRow : Call :=
  reply [messages.dataRow; messages.commandComplete].

(** A call that would execute a statement: sending Bind or Execute. *)
Definition executes (c : Call) : bool :=
  match c with
  | send (SendBind _ _) | send (SendExecute _) => true
  | _ => false
  end.

(** A call that issues a simple query. *)
Definition queries (c : Call) : bool :=
  match c with
  | send (SendQuery _) => true
  | _ => false
  end.

(** The calls issued between two states of the same queue. *)
Definition callsSince (before after : AsyncQueue) : list Call :=
  drop (List.length (calls before)) (calls after).

(** The replies of a peer that describes the statement. *)
Definition describeReplies (d : Described) : list ServerMessage :=
  [ParseComplete;
   ParameterDescription (params d);
   (if fields d is [] then NoData else RowDescription (fields d));
   CloseComplete].

(** The error response of a server to the unfinished statement
    [SELECT * FROM], by field tag: [S] and [V] severity, [C] the SQLSTATE
    code, [M] message, [P] position, [F] file, [L] line, [R] the routine
    that reported the error. *)
Definition syntaxErrorFields : gmap string string :=
  {[ "S" := "ERROR"; "V" := "ERROR"; "C" := "42601";
     "M" := "syntax error at end of input"; "P" := "14";
     "F" := "scan.l"; "L" := "1188"; "R" := "scanner_yyerror" ]}.

(** ** What the resolver is said to build *)

(** The property name under which the parameter at [index] is written:
    the recorded placeholder name, or ["undefined"] past the end of the
    list of names. *)
Definition paramKey (paramNames : list string) (index : nat) : string :=
  Js.toString (Js.index Js.str paramNames index).

(** The replies of a peer to a simple query that selects [rows]. *)
Definition catalogReplies (rows : list (list string)) : list ServerMessage :=
  (RowDescription []
     :: map (λ row, DataRow (map (λ v, {| value := v |}) row)) rows
     ++ [CommandComplete "SELECT"])%list.

(** The replies of a peer that describes the statement as [d] and then
    answers the two catalog queries with [typeRows] and [attributeRows]. *)
Definition resolvingScript (d : Described)
    (typeRows attributeRows : list (list string)) : list ServerMessage :=
  (describeReplies d ++ catalogReplies typeRows
     ++ catalogReplies attributeRows)%list.

(** A field that refers to a column of a table. *)
Definition tableBacked (f : Field) : bool := negb (tableOID f =? 0).

(** The attribute predicate as a disjunction over the table-backed fields
    only, degenerating to [false] when there is none. *)
Definition attrSelection_tableBacked (fields : list Field) : Js.value :=
  match filter (λ f, tableBacked f = true) fields with
  | [] => Js.boolean false
  | backed => Js.str (Js.join " or " (map attrMatcher backed))
  end.

(** A disjunction of clauses, written out from the left. *)
Definition disjunction (clauses : list string) : string :=
  match clauses with
  | [] => ""
  | c :: cs => fold_left (λ acc c', acc +:+ " or " +:+ c') cs c
  end.

(** A column computed by an expression: no table, no attribute number. *)
Definition expressionField : Field :=
  {| name := "?column?"; tableOID := 0; columnAttrNumber := 0; typeOID := 23;
     typeSize := 4; typeModifier := -1; formatCode := 0 |}.

(** ** Sample exchanges *)

(** A statement with three parameters and no result column. *)
Definition threeParams : Described :=
  {| params := [ {| oid := 23 |}; {| oid := 25 |}; {| oid := 1043 |} ];
     fields := [] |}.

Definition threeTypeRows : list (list string) :=
  [["23"; "int4"]; ["25"; "text"]; ["1043"; "varchar"]].

Definition threeParamsQueue : AsyncQueue :=
  {| inbound := resolvingScript threeParams threeTypeRows []; calls := [] |}.

Definition threeParamsResult : TQueryTypes :=
  {| paramTypes := {[ "a" := Js.str "varchar"; "b" := Js.str "text" ]};
     returnTypes := [] |}.

(** The peer reports three parameters where the text has one placeholder,
    and one parameter where the text has two. *)
Definition surplusResult : TQueryTypes :=
  {| paramTypes := {[ "a" := Js.str "int4"; "undefined" := Js.str "varchar" ]};
     returnTypes := [] |}.

(** A statement without parameters that selects one column of a table and
    one computed column. *)
Definition userIdField : Field :=
  {| name := "userid"; tableOID := 16384; columnAttrNumber := 1; typeOID := 23;
     typeSize := 4; typeModifier := -1; formatCode := 0 |}.

Definition twoColumns : Described :=
  {| params := []; fields := [userIdField; expressionField] |}.

Definition twoColumnsQueue : AsyncQueue :=
  {| inbound :=
       resolvingScript twoColumns [["23"; "int4"]] [["16384:1"; "userid"; "t"]];
     calls := [] |}.

Definition twoColumnsText : string := "SELECT userId, 1 FROM users".

Definition twoColumnsProbed : AsyncQueue :=
  (getTypeData (desugaredQuery (desugarQuery twoColumnsText)) "q"
     twoColumnsQueue).2.

Definition twoColumnsTyped : AsyncQueue :=
  (runQuery (typeQuery [23; 23]) twoColumnsProbed).2.

Definition twoColumnsDone : AsyncQueue :=
  (runQuery (attributeQuery (attrSelection (fields twoColumns)))
     twoColumnsTyped).2.

(** A statement that selects one computed column only. *)
Definition expressionOnly : Described :=
  {| params := []; fields := [expressionField] |}.

Definition expressionOnlyQueue : AsyncQueue :=
  {| inbound := resolvingScript expressionOnly [["23"; "int4"]] [];
     calls := [] |}.

(** The attribute query whose predicate is the literal [false]. *)
Definition attributeQuery_false : string :=
  "select
      (attrelid || ':' || attnum) as attid, attname, attnotnull
     from pg_attribute where false;".

Definition expressionOnlyResult : TQueryTypes :=
  {| paramTypes := ∅;
     returnTypes :=
       [ {[ "returnName" := Js.str "?column?"; "typeName" := Js.str "int4" ]} ] |}.

(** The second [:a] sits inside a string literal: the desugarer records
    two names, the peer reports one parameter. *)
Definition quotedText : string := "SELECT :a, ':a'".

Definition quotedDescribed : Described :=
  {| params := [ {| oid := 25 |} ]; fields := [] |}.

Definition quotedQueue : AsyncQueue :=
  {| inbound := resolvingScript quotedDescribed [["25"; "text"]] [];
     calls := [] |}.

Definition quotedResult : TQueryTypes :=
  {| paramTypes := {[ "a" := Js.str "text" ]}; returnTypes := [] |}.

(** A query whose placeholder is named [__proto__], a name made of
    identifier characters like any other. *)
Definition protoText : string := "SELECT :__proto__".

Definition protoDescribed : Described :=
  {| params := [ {| oid := 23 |} ]; fields := [] |}.

Definition protoQueue : AsyncQueue :=
  {| inbound := resolvingScript protoDescribed [["23"; "int4"]] [];
     calls := [] |}.

(** * The rest of the module *)

(** ** The handshake *)

Record StartupOptions : Type := {
  user : string;
  database : string
}.

Section Startup.

(** Modelled from the spec: [queue.connect()] of the wire package, which
    establishes the transport or fails; taken as given. *)
Variable connect : Promise unit.

(** [startup(options, queue)].  The startup parameters are the object
    [{ ...options, client_encoding }]: the properties of the options, here
    in the order of their type, followed by the fixed client encoding. *)
Definition startup (options : StartupOptions) : Promise unit :=
  connect;;
  let startupParams :=
    [("user", user options); ("database", database options);
     ("client_encoding", "'utf-8'")] in
  queue_send (SendStartup startupParams);;
  queue_reply [messages.readyForQuery];;
  mret tt.

End Startup.

(** ** Notions used to state further properties *)

(** How many colons a text has. *)
Fixpoint count_colons (s : string) : nat :=
  match s with
  | EmptyString => 0
  | String c rest => (if is_colon c then 1 else 0) + count_colons rest
  end.

(** A call that awaits a reply. *)
Definition awaits (c : Call) : bool :=
  match c with
  | reply _ => true
  | send _ => false
  end.

(** The row by which a catalog that knows the type [typname] under [oid]
    answers the type query. *)
Definition typeRow (entry : Z * string) : list string :=
  [Js.toString (Js.number entry.1); entry.2].

(** A column as the attribute catalog knows it. *)
Record CatalogColumn : Type := {
  attrelid : Z;
  attnum : Z;
  attname : string;
  attnotnull : bool
}.

(** The row by which the catalog answers the attribute query for a column:
    [attrelid || ':' || attnum], the name, and the not-null flag as the
    text [t] or [f]. *)
Definition attributeRow (c : CatalogColumn) : list string :=
  [Js.toString (Js.number (attrelid c)) +:+ ":"
     +:+ Js.toString (Js.number (attnum c));
   attname c;
   if attnotnull c then "t" else "f"].

(** The types a catalog knows, by OID. *)
Definition catalogTypes (types : list (Z * string)) : gmap Z string :=
  list_to_map types.

(** What [getTypes] resolves with on [twoColumnsQueue]. *)
Definition twoColumnsResult : TQueryTypes :=
  {| paramTypes := ∅;
     returnTypes :=
       [ {[ "columnName" := Js.str "userid"; "nullable" := Js.boolean false;
            "returnName" := Js.str "userid"; "typeName" := Js.str "int4" ]};
         {[ "returnName" := Js.str "?column?"; "typeName" := Js.str "int4" ]} ] |}.

(** The (table, attribute number) pair that identifies a catalog column. *)
Definition columnId (c : CatalogColumn) : Z * Z := (attrelid c, attnum c).

(** The column [userid] of the sample table, declared not null. *)
Definition userIdColumn : CatalogColumn :=
  {| attrelid := 16384; attnum := 1; attname := "userid"; attnotnull := true |}.

(** The description of [SELECT userId FROM users WHERE userId = :userId]:
    one integer parameter, one integer column of the sample table. *)
Definition userById : Described :=
  {| params := [ {| oid := 23 |} ]; fields := [userIdField] |}.

(** * Properties *)

(** ** Text lemmas *)

Lemma append_cons (c : ascii) (a b : string) :
  String c a +:+ b = String c (a +:+ b).
Proof. reflexivity. Qed.

Lemma append_empty_l (s : string) : "" +:+ s = s.
Proof. reflexivity. Qed.

Lemma append_empty_r (s : string) : s +:+ "" = s.
Proof.
  induction s as [|c s IH]; [reflexivity |]. by rewrite append_cons, IH.
Qed.

Lemma append_assoc (a b c : string) : (a +:+ b) +:+ c = a +:+ (b +:+ c).
Proof.
  induction a as [|x a IH]; [reflexivity |]. by rewrite !append_cons, IH.
Qed.

Lemma length_append (a b : string) :
  String.length (a +:+ b) = (String.length a + String.length b)%nat.
Proof.
  induction a as [|x a IH]; [reflexivity |].
  rewrite append_cons. simpl. by rewrite IH.
Qed.

Lemma is_colon_true (c : ascii) : is_colon c = true → c = ":"%char.
Proof. unfold is_colon. apply Ascii.eqb_eq. Qed.

(** ** The desugarer follows the scan *)

Example desugar_plain :
  desugarQuery "no params"
  = {| desugaredQuery := "no params"; paramNames := [] |}.
Proof. reflexivity. Qed.

Example desugar_bare_colon :
  desugarQuery "a::int, :b_1!"
  = {| desugaredQuery := "a$1$2, $3!"; paramNames := [""; "int"; "b_1"] |}.
Proof. vm_compute. reflexivity. Qed.

Lemma markers_names (ts : list Token) : markers ts = List.length (names_of ts).
Proof. induction ts as [|[c|n] ts IH]; simpl; congruence. Qed.

(** [span_word] splits a text into a run of identifier characters and a
    rest that does not start with one. *)
Lemma span_word_spec (s : string) :
  let '(w, r) := span_word s in
  s = w +:+ r ∧ all_word w = true ∧ starts_with_word r = false.
Proof.
  induction s as [|c s IH]; simpl; [done |].
  destruct (is_word c) eqn:Hc.
  - destruct (span_word s) as [w r]. destruct IH as (-> & Hw & Hr).
    simpl. rewrite Hc. done.
  - simpl. rewrite Hc. done.
Qed.

Lemma word_not_colon (c : ascii) : is_word c = true → is_colon c = false.
Proof.
  unfold is_colon. destruct (Ascii.eqb_spec c ":") as [->|]; [|done].
  vm_compute. discriminate.
Qed.

Section ReplaceFacts.

Context {St : Type} (replacer : string → string → St → string * St).

(** The engine at a colon: capture the greedy word, call the replacer,
    resume after the match. *)
Lemma replace_at_colon (rest : string) (st : St) :
  replace_placeholderRegex replacer (String ":" rest) st
  = let '(w, r) := span_word rest in
    let '(replacement, st1) := replacer (":" +:+ w) w st in
    let '(out, st2) := replace_placeholderRegex replacer r st1 in
    (replacement +:+ out, st2).
Proof.
  cbn [replace_placeholderRegex].
  change (is_colon ":") with true. cbv iota.
  enough (H : ∀ r p1,
    (fix capture (p1 r : string) {struct r} : string * St :=
       match r with
       | EmptyString => replacer (":" +:+ p1) p1 st
       | String d r' =>
           if is_word d then capture (p1 +:+ String d EmptyString) r'
           else
             let '(replacement, st1) := replacer (":" +:+ p1) p1 st in
             let '(out, st2) := replace_placeholderRegex replacer r st1 in
             (replacement +:+ out, st2)
       end) p1 r
    = let '(w, r2) := span_word r in
      let '(replacement, st1) := replacer (":" +:+ (p1 +:+ w)) (p1 +:+ w) st in
      let '(out, st2) := replace_placeholderRegex replacer r2 st1 in
      (replacement +:+ out, st2)).
  { rewrite H. reflexivity. }
  induction r as [|d r IH]; intros p1.
  - simpl. rewrite append_empty_r.
    destruct (replacer _ p1 st) as [replacement st1].
    by rewrite append_empty_r.
  - cbn [span_word]. destruct (is_word d) eqn:Hd.
    + rewrite IH. destruct (span_word r) as [w r2].
      rewrite append_assoc. reflexivity.
    + rewrite append_empty_r. reflexivity.
Qed.

Lemma replace_at_text (c : ascii) (rest : string) (st : St) :
  is_colon c = false →
  replace_placeholderRegex replacer (String c rest) st
  = let '(out, st1) := replace_placeholderRegex replacer rest st in
    (String c out, st1).
Proof. intros Hc. cbn [replace_placeholderRegex]. by rewrite Hc. Qed.

End ReplaceFacts.

(** The desugarer walks the scan of the text: started with [names] already
    recorded, it numbers the markers from the next index and appends the
    placeholder names in order. *)
Lemma desugar_follows_scan (n : nat) :
  ∀ (s : string) (names : list string),
    (String.length s < n)%nat →
    ∃ ts, Scans s ts
      ∧ replace_placeholderRegex placeholderReplacer s names
        = (positional (S (List.length names)) ts, (names ++ names_of ts)%list).
Proof.
  induction n as [|n IH]; intros s names Hlen; [lia |].
  destruct s as [|c rest].
  - exists []. split; [constructor |]. simpl. by rewrite app_nil_r.
  - destruct (is_colon c) eqn:Hc.
    + apply is_colon_true in Hc as ->. rewrite replace_at_colon.
      pose proof (span_word_spec rest) as Hspan.
      destruct (span_word rest) as [w r]. destruct Hspan as (Hrest & Hw & Hr).
      destruct (IH r (names ++ [w])%list) as (ts & Hscan & Hrun).
      { subst rest. simpl in Hlen. rewrite length_append in Hlen. lia. }
      exists (Placeholder w :: ts). split.
      * subst rest. by apply (Scans_placeholder w r ts).
      * unfold placeholderReplacer at 1. rewrite Hrun.
        rewrite length_app, Nat.add_1_r. cbn [positional names_of Js.toString].
        by rewrite <- app_assoc.
    + rewrite replace_at_text by done.
      destruct (IH rest names) as (ts & Hscan & Hrun); [simpl in Hlen; lia |].
      exists (Text c :: ts). split; [by constructor |]. by rewrite Hrun.
Qed.

Lemma all_word_starts (w s : string) :
  all_word w = true → starts_with_word s = false →
  span_word (w +:+ s) = (w, s).
Proof.
  intros Hw Hs. induction w as [|c w IH].
  - rewrite append_empty_l. destruct s as [|d s]; [done |].
    simpl in *. by rewrite Hs.
  - simpl in Hw. apply andb_prop in Hw as [Hc Hw].
    rewrite append_cons. cbn [span_word]. by rewrite Hc, (IH Hw).
Qed.

(** The scan of a text is unique: the decomposition leaves no choice. *)
Lemma Scans_functional (s : string) (ts1 ts2 : list Token) :
  Scans s ts1 → Scans s ts2 → ts1 = ts2.
Proof.
  intros H1. revert ts2.
  induction H1 as [|c s ts Hc _ IH|w s ts Hw Hs _ IH]; intros ts2 H2.
  - by inversion H2.
  - inversion H2 as [|c' s' ts' Hc' Hscan|w' s' ts' Hw' Hs' Hscan]; subst.
    + f_equal. by apply IH.
    + discriminate Hc.
  - inversion H2 as [|c' s' ts' Hc' Hscan|w' s' ts' Hw' Hs' Hscan Heq]; subst.
    + discriminate Hc'.
    + assert (Hpair : (w, s) = (w', s')).
      { rewrite <- (all_word_starts w s), <- (all_word_starts w' s') by done.
        by rewrite Heq. }
      injection Hpair as -> ->. f_equal. by apply IH.
Qed.


(** C5: [desugarQuery] scans the text from left to right for a colon
    followed by zero or more identifier characters, replaces the k-th match
    by the positional marker numbered k (counting from 1) and appends each
    matched name, the empty one included, to the name list without merging
    repeats.  On [":a, :b, :a"] it yields the text ["$1, $2, $3"] with the
    names [a; b; a], and the number of markers written always equals the
    length of the name list. *)
Theorem desugarQuery_positional :
  desugarQuery ":a, :b, :a"
  = {| desugaredQuery := "$1, $2, $3"; paramNames := ["a"; "b"; "a"] |}
  ∧ ∀ query : string, ∃ ts : list Token,
      Scans query ts
      ∧ desugaredQuery (desugarQuery query) = positional 1 ts
      ∧ paramNames (desugarQuery query) = names_of ts
      ∧ markers ts = List.length (paramNames (desugarQuery query)).
Proof.
  split; [vm_compute; reflexivity |].
  intros query.
  destruct (desugar_follows_scan (S (String.length query)) query [])
    as (ts & Hscan & Hrun); [lia |].
  exists ts. unfold desugarQuery. rewrite Hrun. simpl.
  repeat split; [done | apply markers_names].
Qed.

(** ** The sequencer and the simple query executor *)

Ltac promise_unfold :=
  unfold mbind, mret, Promise_bind, Promise_ret, andThen, resolve, reject,
    pending, queue_send, queue_reply, backlog, logged in *.

(** A reply resolves only with a message of an expected kind. *)
Lemma queue_reply_resolved expected q m q' :
  queue_reply expected q = (Resolved m, q') →
  kind_of m ∈ expected
  ∧ inbound q = m :: inbound q'
  ∧ calls q' = (calls q ++ [reply expected])%list.
Proof.
  unfold queue_reply, logged. destruct (inbound q) as [|m0 rest] eqn:Hin.
  - discriminate.
  - case_bool_decide as Hk; intros [= <- <-]; simpl; done.
Qed.

(** Every call on the queue extends the trace and never rewrites it. *)
Lemma queue_reply_calls expected q :
  calls (queue_reply expected q).2 = (calls q ++ [reply expected])%list.
Proof.
  unfold queue_reply, logged. destruct (inbound q) as [|m rest]; [done |].
  by case_bool_decide.
Qed.

(** The loop of [runQuery] does not depend on its bound once the bound
    exceeds the number of messages still to come. *)
Lemma runQuery_loop_bound (fuel : nat) :
  ∀ (resultRows : list (list string)) (q : AsyncQueue),
    (List.length (inbound q) < fuel)%nat →
    runQuery_loop fuel resultRows q = runQuery_loop (S fuel) resultRows q.
Proof.
  induction fuel as [|fuel IH]; intros resultRows q Hlen; [lia |].
  destruct q as [ms cs]. simpl in Hlen.
  change (runQuery_loop (S (S fuel)) resultRows)
    with (result ← queue_reply [messages.dataRow; messages.commandComplete];
          if has_commandTag result then resolve resultRows
          else match columns_of result with
               | None => reject TypeError
               | Some columns =>
                   runQuery_loop (S fuel)
                     (resultRows ++ [map (λ c, Buffer_toString (value c)) columns])%list
               end).
  cbn [runQuery_loop]. promise_unfold. cbn [inbound calls].
  destruct ms as [|m rest]; [done |].
  case_bool_decide; [|done].
  destruct m; try done. cbn [has_commandTag columns_of].
  apply IH. simpl in *. lia.
Qed.

Lemma runQuery_loop_rows (rows : list (list Column)) :
  ∀ (fuel : nat) (resultRows : list (list string)) (tag : string)
    (rest : list ServerMessage) (cs : list Call),
    (List.length rows < fuel)%nat →
    runQuery_loop fuel resultRows
      {| inbound := (map DataRow rows ++ CommandComplete tag :: rest)%list;
         calls := cs |}
    = (Resolved (resultRows ++ map (map value) rows)%list,
       {| inbound := rest;
          calls := (cs ++ replicate (S (List.length rows)) awaitRow)%list |}).
Proof.
  induction rows as [|row rows IH]; intros fuel resultRows tag rest cs Hlen;
    (destruct fuel as [|fuel]; [simpl in Hlen; lia |]).
  - cbn. by rewrite app_nil_r.
  - cbn [runQuery_loop map app]. promise_unfold. cbn [inbound calls].
    rewrite bool_decide_eq_true_2 by set_solver.
    cbn [has_commandTag columns_of].
    rewrite IH by (simpl in Hlen; lia).
    cbn [List.length replicate]. unfold Buffer_toString.
    rewrite <- !app_assoc. reflexivity.
Qed.

(** A simple query against a peer that describes the rows, delivers them
    and completes the command. *)
Lemma runQuery_rows (query : string) (described : list Field)
    (rows : list (list Column)) (tag : string) (rest : list ServerMessage)
    (cs : list Call) :
  runQuery query
    {| inbound :=
         (RowDescription described :: map DataRow rows
            ++ CommandComplete tag :: rest)%list;
       calls := cs |}
  = (Resolved (map (map value) rows),
     {| inbound := rest;
        calls := (cs ++ [send (SendQuery query); reply [messages.rowDescription]]
                    ++ replicate (S (List.length rows)) awaitRow)%list |}).
Proof.
  unfold runQuery. promise_unfold. cbn [inbound calls].
  rewrite bool_decide_eq_true_2 by set_solver.
  rewrite runQuery_loop_rows.
  - rewrite <- !app_assoc. reflexivity.
  - cbn [inbound]. rewrite length_app, length_map. lia.
Qed.

(** C9: [runQuery] returns the rows it received as an ordered sequence,
    each row the ordered sequence of the textual values of its columns;
    when the first reply after the row description is command-complete it
    returns the empty sequence, not an error. *)
Theorem runQuery_collects_rows (query : string) (described : list Field)
    (rows : list (list Column)) (tag : string) (rest : list ServerMessage)
    (cs : list Call) :
  runQuery query
    {| inbound :=
         (RowDescription described :: map DataRow rows
            ++ CommandComplete tag :: rest)%list;
       calls := cs |}
  = (Resolved (map (map value) rows),
     {| inbound := rest;
        calls := (cs ++ [send (SendQuery query); reply [messages.rowDescription]]
                    ++ replicate (S (List.length rows)) awaitRow)%list |})
  ∧ runQuery query
      {| inbound := RowDescription described :: CommandComplete tag :: rest;
         calls := cs |}
    = (Resolved [],
       {| inbound := rest;
          calls := (cs ++ [send (SendQuery query);
                           reply [messages.rowDescription]; awaitRow])%list |}).
Proof.
  split; [apply runQuery_rows |].
  apply (runQuery_rows query described [] tag rest cs).
Qed.

(** ** The type probe *)

Ltac reply_decide :=
  repeat match goal with
  | |- context [bool_decide (?k ∈ ?expected)] =>
      let b := eval vm_compute in (bool_decide (k ∈ expected)) in
      change (bool_decide (k ∈ expected)) with b
  end.

Ltac probe_stops :=
  solve [cbn; rewrite <- !app_assoc; repeat split; try done; try lia].

(** The trace of a probe: the batch of four sends, then the awaits in
    order for as long as the exchange goes on; all four when the statement
    is described, only the first when a parse error is returned. *)
Lemma getTypeData_trace (query name : string) (q : AsyncQueue) :
  ∃ n : nat,
    (1 ≤ n ≤ 4)%nat
    ∧ calls (getTypeData query name q).2
      = (calls q ++ probeSends query name ++ take n probeAwaits)%list
    ∧ match (getTypeData query name q).1 with
      | Resolved (inl _) => n = 4%nat
      | Resolved (inr _) => n = 1%nat
      | _ => True
      end.
Proof.
  destruct q as [ms cs]. unfold getTypeData, probeSends, probeAwaits.
  promise_unfold. cbn [inbound calls].
  destruct ms as [|m1 ms].
  { exists 1%nat. probe_stops. }
  destruct m1; cbn [kind_of]; reply_decide;
    try (exists 1%nat; probe_stops).
  destruct ms as [|m2 ms].
  { exists 2%nat. probe_stops. }
  destruct m2; cbn [kind_of inbound calls]; reply_decide;
    try (exists 2%nat; probe_stops).
  all: destruct ms as [|m3 ms];
    [exists 3%nat; probe_stops |].
  all: destruct m3; cbn [kind_of inbound calls]; reply_decide;
    try (exists 3%nat; probe_stops).
  all: destruct ms as [|m4 ms];
    [exists 4%nat; probe_stops |].
  all: destruct m4; cbn [kind_of inbound calls]; reply_decide;
    exists 4%nat; probe_stops.
Qed.

(** The probe on an error response: the parse error is built from the
    fields tagged [R], [H], [M] and [P] and returned after the first
    await; what follows in the inbound script is left unread. *)
Lemma getTypeData_error (query name : string) (errorFields : gmap string string)
    (rest : list ServerMessage) (cs : list Call) :
  getTypeData query name {| inbound := ErrorResponse errorFields :: rest; calls := cs |}
  = (Resolved (inr {| errorCode := errorFields !! "R";
                      hint := errorFields !! "H";
                      message := errorFields !! "M";
                      position := errorFields !! "P" |}),
     {| inbound := rest;
        calls := (cs ++ probeSends query name ++ take 1 probeAwaits)%list |}).
Proof.
  unfold getTypeData, probeSends, probeAwaits. promise_unfold.
  cbn [inbound calls kind_of]. reply_decide. cbn. by rewrite <- !app_assoc.
Qed.

Lemma getTypeData_described (query name : string) (d : Described)
    (rest : list ServerMessage) (cs : list Call) :
  getTypeData query name {| inbound := (describeReplies d ++ rest)%list; calls := cs |}
  = (Resolved (inl d),
     {| inbound := rest;
        calls := (cs ++ probeSends query name ++ probeAwaits)%list |}).
Proof.
  unfold getTypeData, probeSends, probeAwaits, describeReplies. promise_unfold.
  destruct d as [ps fs]. cbn [inbound calls kind_of app params fields].
  reply_decide. cbn [inbound calls].
  destruct fs as [|f fs];
    repeat (progress (cbn [inbound calls kind_of]; reply_decide));
    cbn; by rewrite <- !app_assoc.
Qed.

Lemma callsSince_app (q q' : AsyncQueue) (cs : list Call) :
  calls q' = (calls q ++ cs)%list → callsSince q q' = cs.
Proof. intros Hcalls. unfold callsSince. by rewrite Hcalls, drop_app_length. Qed.

(** The calls of a probe, reply by reply: the batch of four sends, then
    as many awaits as the replies of the peer call for. *)
Lemma getTypeData_calls (query name : string) (q : AsyncQueue) :
  calls (getTypeData query name q).2
  = (calls q ++ probeSends query name
       ++ take (awaitsIssued (inbound q)) probeAwaits)%list
  ∧ match (getTypeData query name q).1 with
    | Resolved (inl _) => awaitsIssued (inbound q) = 4%nat
    | Resolved (inr _) => awaitsIssued (inbound q) = 1%nat
    | _ => True
    end.
Proof.
  destruct q as [ms cs].
  unfold getTypeData, probeSends, probeAwaits, awaitsIssued, probeContinues.
  promise_unfold. cbn [inbound calls].
  destruct ms as [|m1 ms]; [probe_stops |].
  destruct m1; cbn [kind_of answeredInTurn]; reply_decide; try probe_stops.
  destruct ms as [|m2 ms]; [probe_stops |].
  destruct m2; cbn [kind_of inbound calls answeredInTurn]; reply_decide;
    try probe_stops.
  all: destruct ms as [|m3 ms]; [probe_stops |].
  all: destruct m3; cbn [kind_of inbound calls answeredInTurn]; reply_decide;
    try probe_stops.
  all: destruct ms as [|m4 ms]; [probe_stops |].
  all: destruct m4; cbn [kind_of inbound calls]; reply_decide; probe_stops.
Qed.

(** C3: whatever the query text and the statement name, [getTypeData]
    sends exactly Parse, Describe(statement), Close(statement) and Flush, in
    that order, before it awaits anything; it then awaits
    error-response-or-parse-complete, parameter-description-or-no-data,
    row-description-or-no-data and close-complete in that order, each
    await following as soon as the one before it was answered by
    parse-complete or by the description it asked for, so that a peer
    which answers in turn is awaited four times; and it never sends Bind
    or Execute. *)
Theorem getTypeData_exchange (query name : string) (q : AsyncQueue) :
  callsSince q (getTypeData query name q).2
  = (probeSends query name ++ take (awaitsIssued (inbound q)) probeAwaits)%list
  ∧ (∀ (m2 m3 : ServerMessage) (rest : list ServerMessage),
       inbound q = ParseComplete :: m2 :: m3 :: rest →
       kind_of m2 ∈ [messages.parameterDescription; messages.noData] →
       kind_of m3 ∈ [messages.rowDescription; messages.noData] →
       callsSince q (getTypeData query name q).2
       = (probeSends query name ++ probeAwaits)%list)
  ∧ match (getTypeData query name q).1 with
    | Resolved (inl _) => awaitsIssued (inbound q) = 4%nat
    | Resolved (inr _) => awaitsIssued (inbound q) = 1%nat
    | _ => True
    end
  ∧ existsb executes (callsSince q (getTypeData query name q).2) = false.
Proof.
  destruct (getTypeData_calls query name q) as [Hcalls Hout].
  apply callsSince_app in Hcalls. rewrite Hcalls.
  split; [done |]. split; [| split; [done |]].
  - intros m2 m3 rest -> H2 H3. unfold awaitsIssued, probeContinues.
    cbn [answeredInTurn kind_of].
    rewrite (bool_decide_eq_true_2 _ H2), (bool_decide_eq_true_2 _ H3).
    reply_decide. reflexivity.
  - unfold awaitsIssued.
    assert (Hle : (answeredInTurn probeContinues (inbound q) ≤ 3)%nat).
    { generalize (inbound q). unfold probeContinues. intros ms.
      destruct ms as [|m1 ms]; cbn [answeredInTurn]; [lia |].
      case_bool_decide; [| lia].
      destruct ms as [|m2 ms]; cbn [answeredInTurn]; [lia |].
      case_bool_decide; [| lia].
      destruct ms as [|m3 ms]; cbn [answeredInTurn]; [lia |].
      case_bool_decide; [| lia].
      destruct ms; cbn [answeredInTurn]; lia. }
    destruct (answeredInTurn probeContinues (inbound q)) as [|[|[|[|n]]]];
      [reflexivity .. | lia].
Qed.

(** C2, evaluated on the error response to [SELECT * FROM]: the
    [errorCode] of the parse error is the text of the field tagged [R],
    the reporting routine, while the SQLSTATE code of the response, tagged
    [C], is not read; hint, message and position come from [H], [M] and
    [P], and the error is returned after the first await, the remaining
    replies left unread. *)
Theorem getTypeData_errorCode_reads_routine :
  getTypeData "SELECT * FROM" "q"
    {| inbound := [ErrorResponse syntaxErrorFields; ReadyForQuery]; calls := [] |}
  = (Resolved (inr {| errorCode := Some "scanner_yyerror";
                      hint := None;
                      message := Some "syntax error at end of input";
                      position := Some "14" |}),
     {| inbound := [ReadyForQuery];
        calls := (probeSends "SELECT * FROM" "q" ++ take 1 probeAwaits)%list |})
  ∧ syntaxErrorFields !! "C" = Some "42601".
Proof. rewrite getTypeData_error. split; vm_compute; reflexivity. Qed.

(** ** The resolver on a parse error *)

(** C4: when the probe yields a parse error, [getTypes] returns that very
    error and leaves the queue as the probe left it: no catalog query is
    issued, and nothing is combined with the error. *)
Theorem getTypes_propagates_ParseError (query name : string)
    (q q' : AsyncQueue) (parseError : ParseError) :
  getTypeData (desugaredQuery (desugarQuery query)) name q
  = (Resolved (inr parseError), q') →
  getTypes query name q = (Resolved (inr parseError), q')
  ∧ existsb queries (callsSince q q') = false.
Proof.
  intros Hprobe. split.
  - unfold getTypes. destruct (desugarQuery query) as [text names].
    cbn [desugaredQuery] in Hprobe. promise_unfold. by rewrite Hprobe.
  - destruct (getTypeData_trace (desugaredQuery (desugarQuery query)) name q)
      as (n & _ & Hcalls & Hout).
    rewrite Hprobe in Hcalls, Hout. cbn [fst snd] in Hcalls, Hout. subst n.
    by rewrite (callsSince_app _ _ _ Hcalls).
Qed.

Lemma getTypes_propagates_ParseError_witness :
  getTypes "SELECT * FROM" "q"
    {| inbound := [ErrorResponse syntaxErrorFields; ReadyForQuery]; calls := [] |}
  = (Resolved (inr {| errorCode := Some "scanner_yyerror";
                      hint := None;
                      message := Some "syntax error at end of input";
                      position := Some "14" |}),
     {| inbound := [ReadyForQuery];
        calls := (probeSends "SELECT * FROM" "q" ++ take 1 probeAwaits)%list |})
  ∧ existsb queries
      (callsSince
         {| inbound := [ErrorResponse syntaxErrorFields; ReadyForQuery]; calls := [] |}
         {| inbound := [ReadyForQuery];
            calls := (probeSends "SELECT * FROM" "q" ++ take 1 probeAwaits)%list |})
    = false.
Proof.
  apply (getTypes_propagates_ParseError "SELECT * FROM" "q").
  vm_compute. reflexivity.
Defined.

(** ** The resolver: parameter types *)

Section ParamTypes.

Variable paramNames : list string.
Variable typeMap : Js.object.

(** A name that no parameter is written under keeps what it had. *)
Lemma forEach_write_other (params : list Param) :
  ∀ (start : nat) (acc : Js.object) (k : string),
    (∀ j, (j < List.length params)%nat → paramKey paramNames (start + j) ≠ k) →
    forEach (recordParamType paramNames typeMap) params start acc !! k = acc !! k.
Proof.
  induction params as [|p rest IH]; intros start acc k Hk; [done |].
  cbn [forEach]. rewrite IH.
  - unfold recordParamType, Js.assign. case_decide; [done |].
    apply lookup_insert_ne.
    specialize (Hk 0%nat). rewrite Nat.add_0_r in Hk. apply Hk. simpl. lia.
  - intros j Hj. replace (S start + j)%nat with (start + S j)%nat by lia.
    apply Hk. simpl. lia.
Qed.

(** Nothing is ever written under the name [__proto__]. *)
Lemma forEach_write_proto (params : list Param) :
  ∀ (start : nat) (acc : Js.object),
    forEach (recordParamType paramNames typeMap) params start acc !! "__proto__"
    = acc !! "__proto__".
Proof.
  induction params as [|p rest IH]; intros start acc; [done |].
  cbn [forEach]. rewrite IH. unfold recordParamType, Js.assign.
  case_decide as Hkey; [done |]. by apply lookup_insert_ne.
Qed.

(** The entry of a name other than [__proto__] is the one written at the
    last index that carries it. *)
Lemma forEach_write_last (params : list Param) :
  ∀ (start : nat) (acc : Js.object) (i : nat) (param : Param),
    params !! i = Some param →
    paramKey paramNames (start + i) ≠ "__proto__" →
    (∀ j, (i < j < List.length params)%nat →
          paramKey paramNames (start + j) ≠ paramKey paramNames (start + i)) →
    forEach (recordParamType paramNames typeMap) params start acc !! paramKey paramNames (start + i)
    = Some (Js.get typeMap (Js.number (oid param))).
Proof.
  induction params as [|p rest IH]; intros start acc i param Hi Hproto Hlast;
    [done |].
  cbn [forEach]. destruct i as [|i].
  - injection Hi as ->. rewrite forEach_write_other.
    + rewrite Nat.add_0_r in *. unfold recordParamType, Js.assign.
      rewrite decide_False by done. apply lookup_insert_eq.
    + intros j Hj. replace (S start + j)%nat with (start + S j)%nat by lia.
      apply Hlast. simpl. lia.
  - replace (start + S i)%nat with (S start + i)%nat in * by lia.
    apply IH; [done | done |]. intros j Hj.
    replace (S start + j)%nat with (start + S j)%nat by lia.
    apply Hlast. simpl. lia.
Qed.

(** The names written are those of the indices of the parameters, the
    name [__proto__] excepted. *)
Lemma forEach_write_dom (params : list Param) :
  ∀ (start : nat) (acc : Js.object),
    dom (forEach (recordParamType paramNames typeMap) params start acc)
    = dom acc ∪ list_to_set (filter (λ k, k ≠ "__proto__")
                               (map (paramKey paramNames)
                                  (seq start (List.length params)))).
Proof.
  induction params as [|p rest IH]; intros start acc.
  - cbn. set_solver.
  - cbn [forEach List.length seq map]. rewrite IH.
    unfold recordParamType, Js.assign. fold (paramKey paramNames start).
    rewrite filter_cons. case_decide as Hkey.
    + rewrite decide_False by (by intros ?). set_solver.
    + rewrite decide_True by done. rewrite dom_insert_L.
      cbn [list_to_set]. set_solver.
Qed.

End ParamTypes.

Lemma paramTypes_of_last (paramNames : list string) (typeMap : Js.object)
    (params : list Param) (i : nat) (param : Param) :
  params !! i = Some param →
  paramKey paramNames i ≠ "__proto__" →
  (∀ j, (i < j < List.length params)%nat →
        paramKey paramNames j ≠ paramKey paramNames i) →
  paramTypes_of paramNames typeMap params !! paramKey paramNames i
  = Some (Js.get typeMap (Js.number (oid param))).
Proof.
  intros Hi Hproto Hlast. unfold paramTypes_of.
  by apply (forEach_write_last paramNames typeMap params 0 ∅ i param).
Qed.

Lemma paramTypes_of_dom (paramNames : list string) (typeMap : Js.object)
    (params : list Param) :
  dom (paramTypes_of paramNames typeMap params)
  = list_to_set (filter (λ k, k ≠ "__proto__")
                   (map (paramKey paramNames) (seq 0 (List.length params)))).
Proof.
  unfold paramTypes_of.
  rewrite (forEach_write_dom paramNames typeMap params 0 ∅). set_solver.
Qed.

(** A property of [paramTypes] other than [__proto__] is the name recorded
    at the index of one of the parameters. *)
Lemma paramTypes_of_elem (paramNames : list string) (typeMap : Js.object)
    (params : list Param) (k : string) :
  k ≠ "__proto__" →
  k ∈ dom (paramTypes_of paramNames typeMap params)
  ↔ ∃ i, (i < List.length params)%nat ∧ paramKey paramNames i = k.
Proof.
  intros Hk. rewrite paramTypes_of_dom, elem_of_list_to_set, list_elem_of_filter,
    list_elem_of_fmap.
  split.
  - intros (_ & i & -> & Hi%elem_of_seq). exists i. split; [lia | done].
  - intros (i & Hi & <-). split; [done |]. exists i. split; [done |].
    apply elem_of_seq. lia.
Qed.

Lemma paramTypes_of_proto (paramNames : list string) (typeMap : Js.object)
    (params : list Param) :
  paramTypes_of paramNames typeMap params !! "__proto__" = None.
Proof.
  unfold paramTypes_of. by rewrite forEach_write_proto.
Qed.

(** Within the recorded names, the property name is the name itself; past
    them it is ["undefined"]. *)
Lemma paramKey_name (paramNames : list string) (i : nat) (n : string) :
  paramNames !! i = Some n → paramKey paramNames i = n.
Proof. intros Hi. unfold paramKey, Js.index. by rewrite Hi. Qed.

Lemma paramKey_surplus (paramNames : list string) (i : nat) :
  (List.length paramNames ≤ i)%nat → paramKey paramNames i = "undefined".
Proof.
  intros Hi. unfold paramKey, Js.index.
  by rewrite (lookup_ge_None_2 paramNames i Hi).
Qed.

(** ** The resolver: what a resolved run went through *)

(** A resolved run of [getTypes] is a described probe followed by the two
    catalog queries, and its result is assembled from what they returned. *)
Lemma getTypes_resolved_inv (query name : string) (q q' : AsyncQueue)
    (r : TQueryTypes) :
  getTypes query name q = (Resolved (inl r), q') →
  ∃ (d : Described) (q1 : AsyncQueue) (typeRows : list (list string))
    (q2 : AsyncQueue) (attributeRows : list (list string)),
    getTypeData (desugaredQuery (desugarQuery query)) name q
    = (Resolved (inl d), q1)
    ∧ runQuery (typeQuery (map oid (params d) ++ map typeOID (fields d))) q1
      = (Resolved typeRows, q2)
    ∧ runQuery (attributeQuery (attrSelection (fields d))) q2
      = (Resolved attributeRows, q')
    ∧ r = {| paramTypes :=
               paramTypes_of (paramNames (desugarQuery query))
                 (typeMap_of typeRows) (params d);
             returnTypes :=
               map (returnType (attrMap_of attributeRows) (typeMap_of typeRows))
                 (fields d) |}.
Proof.
  unfold getTypes. destruct (desugarQuery query) as [text names].
  cbn [desugaredQuery paramNames].
  unfold mbind, mret, Promise_bind, Promise_ret, andThen at 1.
  destruct (getTypeData text name q) as [[[d|e]|err|] q1] eqn:Hprobe;
    try discriminate.
  destruct d as [ps fs]. unfold andThen at 1.
  destruct (runQuery _ q1) as [[typeRows|err|] q2] eqn:Htypes; try discriminate.
  unfold andThen at 1.
  destruct (runQuery _ q2) as [[attributeRows|err|] q3] eqn:Hattrs;
    try discriminate.
  unfold resolve. intros [= <- <-].
  exists {| params := ps; fields := fs |}, q1, typeRows, q2, attributeRows.
  done.
Qed.

Lemma catalogReplies_run (query : string) (rows : list (list string))
    (rest : list ServerMessage) (cs : list Call) :
  runQuery query {| inbound := (catalogReplies rows ++ rest)%list; calls := cs |}
  = (Resolved rows,
     {| inbound := rest;
        calls := (cs ++ [send (SendQuery query); reply [messages.rowDescription]]
                    ++ replicate (S (List.length rows)) awaitRow)%list |}).
Proof.
  unfold catalogReplies.
  pose proof (runQuery_rows query []
                (map (map (λ v, {| value := v |})) rows) "SELECT" rest cs)
    as Hrun.
  rewrite map_map in Hrun. cbn [app]. rewrite <- app_assoc. cbn [app].
  rewrite Hrun, length_map. f_equal. f_equal.
  rewrite map_map. rewrite <- (map_id rows) at 2. apply map_ext. intros row.
  rewrite map_map. apply map_id.
Qed.

(** Against a peer that describes the statement and answers both catalog
    queries, [getTypes] resolves. *)
Lemma getTypes_resolves (query name : string) (d : Described)
    (typeRows attributeRows : list (list string)) (rest : list ServerMessage)
    (cs : list Call) :
  ∃ q' : AsyncQueue,
    getTypes query name
      {| inbound := (resolvingScript d typeRows attributeRows ++ rest)%list;
         calls := cs |}
    = (Resolved (inl
         {| paramTypes :=
              paramTypes_of (paramNames (desugarQuery query))
                (typeMap_of typeRows) (params d);
            returnTypes :=
              map (returnType (attrMap_of attributeRows) (typeMap_of typeRows))
                (fields d) |}), q')
    ∧ inbound q' = rest.
Proof.
  unfold getTypes, resolvingScript. destruct (desugarQuery query) as [text names].
  cbn [desugaredQuery paramNames].
  unfold mbind, mret, Promise_bind, Promise_ret, andThen.
  rewrite <- !app_assoc, getTypeData_described. destruct d as [ps fs].
  rewrite catalogReplies_run, catalogReplies_run. unfold resolve.
  eexists. split; reflexivity.
Qed.

(** C6, evaluated on a query whose placeholder is named [__proto__]: the
    desugarer records that name, the probe reports one parameter whose
    type the catalog resolves to [int4], and [getTypes] resolves with a
    [paramTypes] that has no property at all: the assignment under that
    name reaches the inherited setter and writes nothing, where an entry
    from the name to [int4] was to be built. *)
Theorem getTypes_proto_placeholder_unwritten :
  paramNames (desugarQuery protoText) = ["__proto__"]
  ∧ (getTypeData (desugaredQuery (desugarQuery protoText)) "q" protoQueue).1
    = Resolved (inl protoDescribed)
  ∧ Js.get (typeMap_of [["23"; "int4"]]) (Js.number 23) = Js.str "int4"
  ∧ (getTypes protoText "q" protoQueue).1
    = Resolved (inl {| paramTypes := ∅; returnTypes := [] |}).
Proof. repeat split; vm_compute; reflexivity. Qed.

(** ** The resolver iterates over the reported parameters *)

Lemma paramKey_take (n : nat) :
  ∀ paramNames : list string,
    (n ≤ List.length paramNames)%nat →
    map (paramKey paramNames) (seq 0 n) = take n paramNames.
Proof.
  induction n as [|n IH]; intros paramNames Hn; [done |].
  destruct paramNames as [|first others]; [simpl in Hn; lia |].
  cbn [seq map take]. f_equal. rewrite <- seq_shift, map_map.
  rewrite <- (IH others) by (simpl in Hn; lia).
  apply map_ext. reflexivity.
Qed.

(** C10: [paramTypes] is built by going over the parameters the peer
    reported, not over the recorded names.  With [n] parameters and [m]
    names, and leaving aside the property name [__proto__], the
    properties written are exactly the names of the indices below [n]:
    a recorded name past the first [n] gets no entry (unless it is also one
    of the first [n]), and the parameters past the [m]-th are all written
    under the property ["undefined"], where the last of them stays. *)
Theorem getTypes_paramTypes_by_parameter (query name : string)
    (q q' : AsyncQueue) (r : TQueryTypes) :
  getTypes query name q = (Resolved (inl r), q') →
  ∃ (d : Described) (q1 : AsyncQueue) (typeRows : list (list string))
    (q2 : AsyncQueue),
    getTypeData (desugaredQuery (desugarQuery query)) name q
    = (Resolved (inl d), q1)
    ∧ runQuery (typeQuery (map oid (params d) ++ map typeOID (fields d))) q1
      = (Resolved typeRows, q2)
    ∧ (∀ k : string,
         k ≠ "__proto__" →
         k ∈ dom (paramTypes r)
         ↔ ∃ i, (i < List.length (params d))%nat
                ∧ paramKey (paramNames (desugarQuery query)) i = k)
    ∧ ((List.length (params d) ≤ List.length (paramNames (desugarQuery query)))%nat →
       ∀ trailing : string,
         trailing ≠ "__proto__" →
         trailing ∈ drop (List.length (params d))
                      (paramNames (desugarQuery query)) →
         trailing ∉ take (List.length (params d))
                      (paramNames (desugarQuery query)) →
         paramTypes r !! trailing = None)
    ∧ ((List.length (paramNames (desugarQuery query)) < List.length (params d))%nat →
       (∀ i, (List.length (paramNames (desugarQuery query)) ≤ i)%nat →
             paramKey (paramNames (desugarQuery query)) i = "undefined")
       ∧ ∃ param : Param,
           last (params d) = Some param
           ∧ paramTypes r !! "undefined"
             = Some (Js.get (typeMap_of typeRows) (Js.number (oid param)))).
Proof.
  intros Hrun.
  destruct (getTypes_resolved_inv _ _ _ _ _ Hrun)
    as (d & q1 & typeRows & q2 & attributeRows & Hprobe & Htypes & _ & ->).
  exists d, q1, typeRows, q2. cbn [paramTypes].
  set (names := paramNames (desugarQuery query)).
  split; [done |]. split; [done |].
  split; [intros k Hk; by apply paramTypes_of_elem |]. split.
  - intros Hle trailing Hproto _ Hfresh.
    apply not_elem_of_dom. rewrite paramTypes_of_elem by done.
    intros (i & Hi & Hkey). apply Hfresh.
    destruct (lookup_lt_is_Some_2 names i) as [n Hn]; [lia |].
    rewrite (paramKey_name names i n Hn) in Hkey. subst n.
    apply list_elem_of_lookup. exists i. by rewrite lookup_take_lt.
  - intros Hlt. split; [intros i Hi; by apply paramKey_surplus |].
    destruct (params d) as [|p ps] eqn:Hps using rev_ind;
      [simpl in Hlt; lia |].
    exists p. split; [apply last_snoc |].
    rewrite length_app in Hlt. cbn [List.length] in Hlt.
    rewrite <- (paramKey_surplus names (List.length ps)) by lia.
    apply paramTypes_of_last.
    + by rewrite lookup_app_r, Nat.sub_diag.
    + by rewrite paramKey_surplus by lia.
    + intros j Hj. rewrite length_app in Hj. simpl in Hj. lia.
Qed.

Lemma getTypes_paramTypes_by_parameter_witness :
  ∃ (d : Described) (q1 : AsyncQueue) (typeRows : list (list string))
    (q2 : AsyncQueue),
    getTypeData (desugaredQuery (desugarQuery "SELECT :a")) "q" threeParamsQueue
    = (Resolved (inl d), q1)
    ∧ runQuery (typeQuery (map oid (params d) ++ map typeOID (fields d))) q1
      = (Resolved typeRows, q2)
    ∧ (∀ k : string,
         k ≠ "__proto__" →
         k ∈ dom (paramTypes surplusResult)
         ↔ ∃ i, (i < List.length (params d))%nat
                ∧ paramKey (paramNames (desugarQuery "SELECT :a")) i = k)
    ∧ ((List.length (params d) ≤ List.length (paramNames (desugarQuery "SELECT :a")))%nat →
       ∀ trailing : string,
         trailing ≠ "__proto__" →
         trailing ∈ drop (List.length (params d))
                      (paramNames (desugarQuery "SELECT :a")) →
         trailing ∉ take (List.length (params d))
                      (paramNames (desugarQuery "SELECT :a")) →
         paramTypes surplusResult !! trailing = None)
    ∧ ((List.length (paramNames (desugarQuery "SELECT :a")) < List.length (params d))%nat →
       (∀ i, (List.length (paramNames (desugarQuery "SELECT :a")) ≤ i)%nat →
             paramKey (paramNames (desugarQuery "SELECT :a")) i = "undefined")
       ∧ ∃ param : Param,
           last (params d) = Some param
           ∧ paramTypes surplusResult !! "undefined"
             = Some (Js.get (typeMap_of typeRows) (Js.number (oid param)))).
Proof.
  apply (getTypes_paramTypes_by_parameter "SELECT :a" "q" threeParamsQueue
           (getTypes "SELECT :a" "q" threeParamsQueue).2 surplusResult).
  vm_compute. reflexivity.
Defined.

(** ** The resolver: return types *)

(** When the probe describes the statement and both catalog queries
    resolve, so does [getTypes]. *)
Lemma getTypes_resolved_intro (query name : string) (q q1 q2 q' : AsyncQueue)
    (d : Described) (typeRows attributeRows : list (list string)) :
  getTypeData (desugaredQuery (desugarQuery query)) name q
  = (Resolved (inl d), q1) →
  runQuery (typeQuery (map oid (params d) ++ map typeOID (fields d))) q1
  = (Resolved typeRows, q2) →
  runQuery (attributeQuery (attrSelection (fields d))) q2
  = (Resolved attributeRows, q') →
  getTypes query name q
  = (Resolved (inl
       {| paramTypes :=
            paramTypes_of (paramNames (desugarQuery query))
              (typeMap_of typeRows) (params d);
          returnTypes :=
            map (returnType (attrMap_of attributeRows) (typeMap_of typeRows))
              (fields d) |}), q').
Proof.
  intros Hprobe Htypes Hattrs. unfold getTypes.
  destruct (desugarQuery query) as [text names].
  cbn [desugaredQuery paramNames] in *.
  unfold mbind, mret, Promise_bind, Promise_ret, andThen.
  rewrite Hprobe. destruct d as [ps fs]. cbn [params fields] in *.
  by rewrite Htypes, Hattrs.
Qed.

(** The element of [returnTypes] for a field without attribute
    information has the two properties [returnName] and [typeName] and no
    other. *)
Lemma returnType_without_attribute (attrMap : gmap string Js.object)
    (typeMap : Js.object) (f : Field) :
  attrMap !! attrKey f = None →
  returnType attrMap typeMap f
  = {[ "returnName" := Js.str (name f);
       "typeName" := Js.get typeMap (Js.number (typeOID f)) ]}.
Proof.
  intros Hnone. unfold returnType, Js.set, Js.spread. rewrite Hnone.
  cbn [default Js.toString]. rewrite (left_id_L ∅ (∪)).
  apply map_eq. intros k.
  destruct (decide (k = "typeName")) as [->|Htype]; [by simplify_map_eq |].
  destruct (decide (k = "returnName")) as [->|Hret]; by simplify_map_eq.
Qed.

(** C8: for a field whose (tableOID, columnAttrNumber) key has no entry in
    the attribute map, [getTypes] still resolves, and the element of
    [returnTypes] for that field holds [returnName] and [typeName] while
    [columnName] and [nullable] are not set. *)
Theorem getTypes_field_without_attribute (query statement : string)
    (q q1 q2 q' : AsyncQueue) (d : Described)
    (typeRows attributeRows : list (list string)) (i : nat) (f : Field) :
  getTypeData (desugaredQuery (desugarQuery query)) statement q
  = (Resolved (inl d), q1) →
  runQuery (typeQuery (map oid (params d) ++ map typeOID (fields d))) q1
  = (Resolved typeRows, q2) →
  runQuery (attributeQuery (attrSelection (fields d))) q2
  = (Resolved attributeRows, q') →
  fields d !! i = Some f →
  attrMap_of attributeRows !! attrKey f = None →
  ∃ (r : TQueryTypes) (entry : Js.object),
    getTypes query statement q = (Resolved (inl r), q')
    ∧ returnTypes r !! i = Some entry
    ∧ entry !! "returnName" = Some (Js.str (name f))
    ∧ entry !! "typeName"
      = Some (Js.get (typeMap_of typeRows) (Js.number (typeOID f)))
    ∧ entry !! "columnName" = None
    ∧ entry !! "nullable" = None
    ∧ dom entry = {[ "returnName"; "typeName" ]}.
Proof.
  intros Hprobe Htypes Hattrs Hf Hnone.
  eexists _, (returnType (attrMap_of attributeRows) (typeMap_of typeRows) f).
  split; [by eapply getTypes_resolved_intro |].
  cbn [returnTypes]. split; [by rewrite list_lookup_fmap, Hf |].
  rewrite returnType_without_attribute by done.
  repeat split; try done; set_solver.
Qed.

Lemma getTypes_field_without_attribute_witness :
  ∃ (r : TQueryTypes) (entry : Js.object),
    getTypes twoColumnsText "q" twoColumnsQueue
    = (Resolved (inl r), twoColumnsDone)
    ∧ returnTypes r !! 1%nat = Some entry
    ∧ entry !! "returnName" = Some (Js.str (name expressionField))
    ∧ entry !! "typeName"
      = Some (Js.get (typeMap_of [["23"; "int4"]])
                (Js.number (typeOID expressionField)))
    ∧ entry !! "columnName" = None
    ∧ entry !! "nullable" = None
    ∧ dom entry = {[ "returnName"; "typeName" ]}.
Proof.
  apply (getTypes_field_without_attribute twoColumnsText "q"
           twoColumnsQueue twoColumnsProbed twoColumnsTyped twoColumnsDone
           twoColumns [["23"; "int4"]] [["16384:1"; "userid"; "t"]]
           1 expressionField);
    vm_compute; reflexivity.
Defined.

(** ** The resolver: the attribute map *)

Lemma attrMap_of_snoc (rows : list (list string)) (row : list string) :
  attrMap_of (rows ++ [row])
  = <[Js.toString (Js.index Js.str row 0) :=
        attrInfo (Js.index Js.str row 1) (Js.index Js.str row 2)]>
      (attrMap_of rows).
Proof. unfold attrMap_of. by rewrite fold_left_app. Qed.

Lemma attrInfo_nullable (attname attnotnull : Js.value) :
  attrInfo attname attnotnull !! "nullable"
  = Some (Js.boolean (bool_decide (attnotnull ≠ Js.str "t"))).
Proof. unfold attrInfo, Js.set. cbn [Js.toString]. by simplify_map_eq. Qed.

Lemma attrInfo_columnName (attname attnotnull : Js.value) :
  attrInfo attname attnotnull !! "columnName" = Some attname.
Proof. unfold attrInfo, Js.set. cbn [Js.toString]. by simplify_map_eq. Qed.

(** The third column of a row is the literal [t] exactly when it reads as
    the string [t]. *)
Lemma attnotnull_marker (row : list string) :
  Js.index Js.str row 2 = Js.str "t" ↔ row !! 2%nat = Some "t".
Proof.
  unfold Js.index. destruct (row !! 2%nat) as [v|]; cbn; [|done].
  split; congruence.
Qed.

(** C7: every entry of the attribute map was folded in from a catalog row
    with that key, and its [nullable] flag is computed from the not-null
    text of that row: it is [false] exactly when the text is the literal
    marker [t], and [true] for anything else; no entry carries a flag that
    does not come from a row. *)
Theorem attrMap_nullable_derived (attributeRows : list (list string))
    (key : string) (info : Js.object) :
  attrMap_of attributeRows !! key = Some info →
  ∃ row : list string,
    row ∈ attributeRows
    ∧ Js.toString (Js.index Js.str row 0) = key
    ∧ info !! "columnName" = Some (Js.index Js.str row 1)
    ∧ info !! "nullable"
      = Some (Js.boolean (bool_decide (Js.index Js.str row 2 ≠ Js.str "t")))
    ∧ (info !! "nullable" = Some (Js.boolean false) ↔ row !! 2%nat = Some "t")
    ∧ (info !! "nullable" = Some (Js.boolean true) ↔ row !! 2%nat ≠ Some "t").
Proof.
  revert key info.
  induction attributeRows as [|row rows IH] using rev_ind; intros key info Hinfo.
  - unfold attrMap_of in Hinfo. cbn [fold_left] in Hinfo.
    by rewrite lookup_empty in Hinfo.
  - rewrite attrMap_of_snoc in Hinfo.
    destruct (decide (Js.toString (Js.index Js.str row 0) = key)) as [Hkey|Hkey].
    + rewrite Hkey, lookup_insert_eq in Hinfo. injection Hinfo as <-.
      exists row. rewrite attrInfo_nullable, attrInfo_columnName.
      split; [set_solver |]. split; [done |]. split; [done |]. split; [done |].
      rewrite <- attnotnull_marker.
      case_bool_decide as Hmark; naive_solver.
    + rewrite lookup_insert_ne in Hinfo by done.
      destruct (IH key info Hinfo) as (row' & Hin & Hrest).
      exists row'. split; [set_solver | done].
Qed.

Lemma attrMap_nullable_derived_witness :
  ∃ row : list string,
    row ∈ [["16384:1"; "userid"; "t"]; ["16384:2"; "nickname"; "f"]]
    ∧ Js.toString (Js.index Js.str row 0) = "16384:2"
    ∧ attrInfo (Js.str "nickname") (Js.str "f") !! "columnName"
      = Some (Js.index Js.str row 1)
    ∧ attrInfo (Js.str "nickname") (Js.str "f") !! "nullable"
      = Some (Js.boolean (bool_decide (Js.index Js.str row 2 ≠ Js.str "t")))
    ∧ (attrInfo (Js.str "nickname") (Js.str "f") !! "nullable"
       = Some (Js.boolean false) ↔ row !! 2%nat = Some "t")
    ∧ (attrInfo (Js.str "nickname") (Js.str "f") !! "nullable"
       = Some (Js.boolean true) ↔ row !! 2%nat ≠ Some "t").
Proof.
  apply (attrMap_nullable_derived
           [["16384:1"; "userid"; "t"]; ["16384:2"; "nickname"; "f"]]
           "16384:2" (attrInfo (Js.str "nickname") (Js.str "f"))).
  vm_compute. reflexivity.
Defined.

(** ** The resolver: the attribute predicate *)

(** The loop of [runQuery] only awaits. *)
Lemma runQuery_loop_trace (fuel : nat) :
  ∀ (resultRows : list (list string)) (q : AsyncQueue),
    ∃ later : list Call,
      calls (runQuery_loop fuel resultRows q).2 = (calls q ++ later)%list
      ∧ List.filter queries later = [].
Proof.
  induction fuel as [|fuel IH]; intros resultRows q.
  - exists []. cbn. by rewrite app_nil_r.
  - cbn [runQuery_loop]. unfold mbind, Promise_bind, andThen.
    pose proof (queue_reply_calls [messages.dataRow; messages.commandComplete] q)
      as Hcalls.
    destruct (queue_reply _ q) as [[m|e|] q1]; cbn [snd] in Hcalls;
      try by (eexists; split; [exact Hcalls | reflexivity]).
    destruct (has_commandTag m);
      [by (eexists; split; [exact Hcalls | reflexivity]) |].
    destruct (columns_of m) as [columns|];
      [| by (eexists; split; [exact Hcalls | reflexivity])].
    destruct (IH (resultRows ++ [map (λ c, Buffer_toString (value c)) columns])%list q1)
      as (later & Hlater & Hnone).
    exists (reply [messages.dataRow; messages.commandComplete] :: later).
    split; [| exact Hnone].
    rewrite Hlater, Hcalls, <- app_assoc. reflexivity.
Qed.

(** A simple query sends its text once and then only awaits. *)
Lemma runQuery_trace (query : string) (q : AsyncQueue) :
  ∃ later : list Call,
    calls (runQuery query q).2
    = (calls q ++ send (SendQuery query) :: later)%list
    ∧ List.filter queries later = [].
Proof.
  unfold runQuery, mbind, Promise_bind, andThen, queue_send, backlog.
  pose proof (queue_reply_calls [messages.rowDescription]
                (logged (send (SendQuery query)) q)) as Hcalls.
  destruct (queue_reply _ (logged _ q)) as [[m|e|] q1]; cbn [snd] in Hcalls;
    cbn [logged calls] in Hcalls; rewrite <- app_assoc in Hcalls;
    try by (eexists; split; [exact Hcalls | reflexivity]).
  destruct (runQuery_loop_trace (S (List.length (inbound q1))) [] q1)
    as (later & Hlater & Hnone).
  exists (reply [messages.rowDescription] :: later). split; [| exact Hnone].
  rewrite Hlater, Hcalls, <- app_assoc. reflexivity.
Qed.

Lemma join_disjunction (clauses : list string) :
  Js.join " or " clauses = disjunction clauses.
Proof.
  destruct clauses as [|c cs]; [done |]. cbn [disjunction].
  revert c. induction cs as [|c1 rest IH]; intros c; [done |].
  cbn [fold_left]. rewrite <- IH.
  destruct rest as [|c2 rest]; [done |].
  change (Js.join " or " (c :: c1 :: c2 :: rest))
    with (c +:+ " or " +:+ (c1 +:+ " or " +:+ Js.join " or " (c2 :: rest))).
  change (Js.join " or " ((c +:+ " or " +:+ c1) :: c2 :: rest))
    with ((c +:+ " or " +:+ c1) +:+ " or " +:+ Js.join " or " (c2 :: rest)).
  by rewrite !append_assoc.
Qed.

(** C1, as the code has it: the attribute predicate is the disjunction of
    one (attrelid = tableOID and attnum = columnAttrNumber) clause for
    every described field, whatever its table reference; only when no
    field is described at all is the predicate the literal [false], and
    the catalog query then reads [... from pg_attribute where false;].
    A resolved run sends exactly two simple queries, the second of which is
    the attribute query with that predicate. *)
Theorem getTypes_attribute_predicate (query name : string)
    (q q' : AsyncQueue) (r : TQueryTypes) :
  getTypes query name q = (Resolved (inl r), q') →
  ∃ (d : Described) (q1 : AsyncQueue) (typeRows : list (list string))
    (q2 : AsyncQueue) (attributeRows : list (list string)),
    getTypeData (desugaredQuery (desugarQuery query)) name q
    = (Resolved (inl d), q1)
    ∧ runQuery (typeQuery (map oid (params d) ++ map typeOID (fields d))) q1
      = (Resolved typeRows, q2)
    ∧ runQuery (attributeQuery (attrSelection (fields d))) q2
      = (Resolved attributeRows, q')
    ∧ attrSelection (fields d)
      = match fields d with
        | [] => Js.boolean false
        | described => Js.str (disjunction (map attrMatcher described))
        end
    ∧ match fields d with
      | [] => attributeQuery (attrSelection (fields d)) = attributeQuery_false
      | _ => True
      end
    ∧ List.filter queries (callsSince q q')
      = [send (SendQuery
                 (typeQuery (map oid (params d) ++ map typeOID (fields d))));
         send (SendQuery (attributeQuery (attrSelection (fields d))))].
Proof.
  intros Hrun.
  destruct (getTypes_resolved_inv _ _ _ _ _ Hrun)
    as (d & q1 & typeRows & q2 & attributeRows & Hprobe & Htypes & Hattrs & _).
  exists d, q1, typeRows, q2, attributeRows.
  split; [done |]. split; [done |]. split; [done |]. split; [| split].
  - unfold attrSelection. destruct (fields d) as [|f fs]; [done |].
    cbn [List.length Nat.ltb Nat.leb]. by rewrite join_disjunction.
  - destruct (fields d); [vm_compute; reflexivity | done].
  - destruct (getTypeData_trace (desugaredQuery (desugarQuery query)) name q)
      as (n & _ & Hc1 & Hout).
    rewrite Hprobe in Hc1, Hout. cbn [fst snd] in Hc1, Hout. subst n.
    destruct (runQuery_trace
                (typeQuery (map oid (params d) ++ map typeOID (fields d))) q1)
      as (later1 & Hc2 & Hnone1).
    rewrite Htypes in Hc2. cbn [snd] in Hc2.
    destruct (runQuery_trace (attributeQuery (attrSelection (fields d))) q2)
      as (later2 & Hc3 & Hnone2).
    rewrite Hattrs in Hc3. cbn [snd] in Hc3.
    rewrite (callsSince_app q q'
               ((probeSends (desugaredQuery (desugarQuery query)) name
                   ++ take 4 probeAwaits)
                ++ (send (SendQuery (typeQuery
                      (map oid (params d) ++ map typeOID (fields d)))) :: later1)
                ++ (send (SendQuery (attributeQuery (attrSelection (fields d))))
                      :: later2))).
    + rewrite !List.filter_app. cbn [List.filter queries probeSends probeAwaits take app].
      by rewrite Hnone1, Hnone2.
    + rewrite Hc3, Hc2, Hc1, <- !app_assoc. reflexivity.
Qed.

Lemma getTypes_attribute_predicate_witness :
  ∃ (d : Described) (q1 : AsyncQueue) (typeRows : list (list string))
    (q2 : AsyncQueue) (attributeRows : list (list string)),
    getTypeData (desugaredQuery (desugarQuery "SELECT 1")) "q" expressionOnlyQueue
    = (Resolved (inl d), q1)
    ∧ runQuery (typeQuery (map oid (params d) ++ map typeOID (fields d))) q1
      = (Resolved typeRows, q2)
    ∧ runQuery (attributeQuery (attrSelection (fields d))) q2
      = (Resolved attributeRows, (getTypes "SELECT 1" "q" expressionOnlyQueue).2)
    ∧ attrSelection (fields d)
      = match fields d with
        | [] => Js.boolean false
        | described => Js.str (disjunction (map attrMatcher described))
        end
    ∧ match fields d with
      | [] => attributeQuery (attrSelection (fields d)) = attributeQuery_false
      | _ => True
      end
    ∧ List.filter queries
        (callsSince expressionOnlyQueue
           (getTypes "SELECT 1" "q" expressionOnlyQueue).2)
      = [send (SendQuery
                 (typeQuery (map oid (params d) ++ map typeOID (fields d))));
         send (SendQuery (attributeQuery (attrSelection (fields d))))].
Proof.
  apply (getTypes_attribute_predicate "SELECT 1" "q" expressionOnlyQueue
           (getTypes "SELECT 1" "q" expressionOnlyQueue).2
           expressionOnlyResult).
  vm_compute. reflexivity.
Defined.

(** C1 read literally, with clauses for the table-backed fields only,
    fails on a statement that selects a computed column: the code writes a
    clause for that field too, and does not fall back to [false]. *)
Lemma attrSelection_covers_every_field :
  attrSelection (fields expressionOnly) = Js.str "(attrelid = 0 and attnum = 0)"
  ∧ attrSelection_tableBacked (fields expressionOnly) = Js.boolean false
  ∧ attrSelection (fields expressionOnly)
    ≠ attrSelection_tableBacked (fields expressionOnly)
  ∧ List.filter queries (calls (getTypes "SELECT 1" "q" expressionOnlyQueue).2)
    = [send (SendQuery "select oid, typname from pg_type where oid in (23)");
       send (SendQuery "select
      (attrelid || ':' || attnum) as attid, attname, attnotnull
     from pg_attribute where (attrelid = 0 and attnum = 0);")].
Proof.
  split; [vm_compute; reflexivity |]. split; [vm_compute; reflexivity |].
  split; [vm_compute; discriminate |]. vm_compute. reflexivity.
Qed.

(** C10 read literally fails when a trailing name repeats one of the first
    names: with the names [a; a] and one reported parameter, the trailing
    name [a] has an entry, the one written for index 0. *)
Lemma trailing_name_with_entry :
  paramNames (desugarQuery quotedText) = ["a"; "a"]
  ∧ (getTypes quotedText "q" quotedQueue).1 = Resolved (inl quotedResult)
  ∧ (getTypeData (desugaredQuery (desugarQuery quotedText)) "q" quotedQueue).1
    = Resolved (inl quotedDescribed)
  ∧ (List.length (params quotedDescribed)
     < List.length (paramNames (desugarQuery quotedText)))%nat
  ∧ drop (List.length (params quotedDescribed))
      (paramNames (desugarQuery quotedText)) = ["a"]
  ∧ paramTypes quotedResult !! "a" = Some (Js.str "text")
  ∧ paramTypes quotedResult !! "a" ≠ None.
Proof.
  split; [vm_compute; reflexivity |]. split; [vm_compute; reflexivity |].
  split; [vm_compute; reflexivity |]. split; [vm_compute; lia |].
  split; [vm_compute; reflexivity |]. split; [vm_compute; reflexivity |].
  vm_compute. discriminate.
Qed.

(** * Further properties *)

(** ** The desugarer *)

Lemma count_colons_append (a b : string) :
  count_colons (a +:+ b) = (count_colons a + count_colons b)%nat.
Proof.
  induction a as [|c a IH]; [reflexivity |].
  rewrite append_cons. cbn [count_colons]. rewrite IH. lia.
Qed.

Lemma all_word_no_colon (w : string) :
  all_word w = true → count_colons w = 0%nat.
Proof.
  induction w as [|c w IH]; [done |]. cbn [all_word count_colons].
  intros [Hc Hw]%andb_prop. by rewrite (word_not_colon c Hc), IH.
Qed.

(** Decimal numerals have no colon. *)
Lemma pretty_N_go_colons (x : N) :
  ∀ s : string, count_colons (pretty_N_go x s) = count_colons s.
Proof.
  induction (N.lt_wf_0 x) as [x _ IH]; intros s.
  assert (x = 0 ∨ 0 < x)%N as [->|Hx] by lia.
  - by rewrite pretty_N_go_0.
  - rewrite pretty_N_go_step by done. rewrite IH by (by apply N.div_lt).
    cbn [count_colons]. unfold pretty_N_char. by repeat case_match.
Qed.

Lemma pretty_Z_colons (z : Z) : count_colons (pretty z) = 0%nat.
Proof.
  assert (HN : ∀ n : N, count_colons (pretty n) = 0%nat).
  { intros n. unfold pretty, pretty_N. case_decide; [done |].
    by rewrite pretty_N_go_colons. }
  destruct z as [|p|p]; [done | apply (HN (Npos p)) |].
  change (pretty (Z.neg p)) with ("-" +:+ pretty (Npos p)).
  rewrite count_colons_append, HN. reflexivity.
Qed.

Lemma Scans_colons (s : string) (ts : list Token) :
  Scans s ts → count_colons s = markers ts.
Proof.
  induction 1 as [|c s ts Hc _ IH|w s ts Hw Hs _ IH]; [done | |].
  - cbn [count_colons markers]. by rewrite Hc, IH.
  - cbn [count_colons markers]. change (is_colon ":") with true.
    by rewrite count_colons_append, (all_word_no_colon w Hw), IH.
Qed.

Lemma Scans_names_word (s : string) (ts : list Token) :
  Scans s ts → Forall (λ n, all_word n = true) (names_of ts).
Proof.
  induction 1 as [|c s ts Hc _ IH|w s ts Hw Hs _ IH]; cbn [names_of];
    [constructor | done | by constructor].
Qed.

Lemma Scans_positional_colons (s : string) (ts : list Token) :
  Scans s ts → ∀ k : nat, count_colons (positional k ts) = 0%nat.
Proof.
  induction 1 as [|c s ts Hc _ IH|w s ts Hw Hs _ IH]; intros k; [done | |].
  - cbn [positional count_colons]. by rewrite Hc, IH.
  - cbn [positional]. rewrite !count_colons_append, pretty_Z_colons, IH.
    reflexivity.
Qed.

(** A text without colon scans as its characters. *)
Lemma Scans_plain (s : string) (ts : list Token) :
  Scans s ts → count_colons s = 0%nat →
  names_of ts = [] ∧ ∀ k, positional k ts = s.
Proof.
  induction 1 as [|c s ts Hc _ IH|w s ts Hw Hs _ IH]; [done | |].
  - cbn [count_colons]. rewrite Hc. intros Hs.
    destruct (IH Hs) as [Hnames Htext]. split; [done |].
    intros k. cbn [positional]. by rewrite Htext.
  - cbn [count_colons]. change (is_colon ":") with true. discriminate.
Qed.

(** The scan that [desugarQuery] follows. *)
Lemma desugarQuery_scan (query : string) :
  ∃ ts : list Token,
    Scans query ts
    ∧ desugaredQuery (desugarQuery query) = positional 1 ts
    ∧ paramNames (desugarQuery query) = names_of ts.
Proof.
  destruct (desugar_follows_scan (S (String.length query)) query [])
    as (ts & Hscan & Hrun); [lia |].
  exists ts. unfold desugarQuery. rewrite Hrun. done.
Qed.

Lemma desugaredQuery_no_colon (query : string) :
  count_colons (desugaredQuery (desugarQuery query)) = 0%nat.
Proof.
  destruct (desugarQuery_scan query) as (ts & Hscan & -> & _).
  by apply (Scans_positional_colons query).
Qed.

Lemma desugarQuery_plain (query : string) :
  count_colons query = 0%nat →
  desugarQuery query = {| desugaredQuery := query; paramNames := [] |}.
Proof.
  intros Hs. destruct (desugarQuery_scan query) as (ts & Hscan & Htext & Hnames).
  destruct (Scans_plain query ts Hscan Hs) as [Hnone Hsame].
  destruct (desugarQuery query) as [text names]. cbn in *.
  by rewrite Htext, Hnames, Hnone, Hsame.
Qed.

(** X1: every colon of the query becomes a placeholder: the number of
    recorded names is the number of colons of the text, and the desugared
    text has no colon left (so a cast written [::type] is rewritten too). *)
Theorem desugarQuery_consumes_every_colon (query : string) :
  List.length (paramNames (desugarQuery query)) = count_colons query
  ∧ count_colons (desugaredQuery (desugarQuery query)) = 0%nat.
Proof.
  split; [| apply desugaredQuery_no_colon].
  destruct (desugarQuery_scan query) as (ts & Hscan & _ & ->).
  by rewrite <- markers_names, (Scans_colons _ _ Hscan).
Qed.

(** X2: a recorded name consists of identifier characters only; in
    particular it has no colon, no blank and no quote. *)
Theorem desugarQuery_names_are_words (query : string) :
  Forall (λ n, all_word n = true) (paramNames (desugarQuery query)).
Proof.
  destruct (desugarQuery_scan query) as (ts & Hscan & _ & ->).
  by apply (Scans_names_word query).
Qed.

(** X3: a text without colon is returned unchanged, with no name. *)
Theorem desugarQuery_without_colon (query : string) :
  count_colons query = 0%nat →
  desugarQuery query = {| desugaredQuery := query; paramNames := [] |}.
Proof. apply desugarQuery_plain. Qed.

Lemma desugarQuery_without_colon_witness :
  desugarQuery "SELECT * FROM users;"
  = {| desugaredQuery := "SELECT * FROM users;"; paramNames := [] |}.
Proof.
  apply (desugarQuery_without_colon "SELECT * FROM users;"). reflexivity.
Defined.

(** X4: desugaring is idempotent: applied to its own output it changes
    nothing and records no name. *)
Theorem desugarQuery_idempotent (query : string) :
  desugarQuery (desugaredQuery (desugarQuery query))
  = {| desugaredQuery := desugaredQuery (desugarQuery query);
       paramNames := [] |}.
Proof. apply desugarQuery_plain, desugaredQuery_no_colon. Qed.

(** ** The sequencer, once more *)

Lemma queue_reply_unexpected (expected : list messages.kind)
    (m : ServerMessage) (rest : list ServerMessage) (cs : list Call) :
  kind_of m ∉ expected →
  queue_reply expected {| inbound := m :: rest; calls := cs |}
  = (Rejected (Desync m expected),
     {| inbound := m :: rest; calls := (cs ++ [reply expected])%list |}).
Proof.
  intros Hk. unfold queue_reply, logged. cbn [inbound calls].
  by rewrite bool_decide_eq_false_2.
Qed.

Lemma queue_reply_expected (expected : list messages.kind)
    (m : ServerMessage) (rest : list ServerMessage) (cs : list Call) :
  kind_of m ∈ expected →
  queue_reply expected {| inbound := m :: rest; calls := cs |}
  = (Resolved m, {| inbound := rest; calls := (cs ++ [reply expected])%list |}).
Proof.
  intros Hk. unfold queue_reply, logged. cbn [inbound calls].
  by rewrite bool_decide_eq_true_2.
Qed.

(** ** The handshake *)

Lemma startup_after_connect (connect : Promise unit)
    (options : StartupOptions) (q q1 : AsyncQueue) :
  connect q = (Resolved tt, q1) →
  startup connect options q
  = match queue_reply [messages.readyForQuery]
            (logged (send (SendStartup [("user", user options);
                                        ("database", database options);
                                        ("client_encoding", "'utf-8'")])) q1)
    with
    | (Resolved _, q2) => (Resolved tt, q2)
    | (Rejected e, q2) => (Rejected e, q2)
    | (Pending, q2) => (Pending, q2)
    end.
Proof.
  intros Hconnect. unfold startup, mbind, mret, Promise_bind, Promise_ret.
  unfold andThen at 1. rewrite Hconnect. reflexivity.
Qed.

(** X5: once the transport is connected, [startup] sends one startup
    message carrying user, database and the fixed client encoding, and
    awaits ready-for-query.  It resolves exactly when that is the next
    inbound message; any other message, an error response included, is a
    desync and not a clean error. *)
Theorem startup_handshake (connect : Promise unit) (options : StartupOptions)
    (q q1 : AsyncQueue) :
  connect q = (Resolved tt, q1) →
  calls (startup connect options q).2
  = (calls q1
       ++ [send (SendStartup [("user", user options);
                              ("database", database options);
                              ("client_encoding", "'utf-8'")]);
           reply [messages.readyForQuery]])%list
  ∧ ((startup connect options q).1 = Resolved tt
     ↔ ∃ rest, inbound q1 = ReadyForQuery :: rest)
  ∧ (∀ m rest, inbound q1 = m :: rest → kind_of m ≠ messages.readyForQuery →
       (startup connect options q).1
       = Rejected (Desync m [messages.readyForQuery])).
Proof.
  intros Hconnect. rewrite (startup_after_connect _ _ _ _ Hconnect).
  destruct q1 as [ms cs]. unfold logged. cbn [inbound calls].
  destruct ms as [|m rest].
  - cbn. rewrite <- app_assoc. split; [done |]. split; [| done].
    split; [done | intros [? [=]]].
  - destruct (decide (kind_of m = messages.readyForQuery)) as [Hk|Hk].
    + rewrite queue_reply_expected by (rewrite Hk; set_solver).
      cbn. rewrite <- app_assoc. split; [done |]. split.
      * split; [intros _ | done]. destruct m; try discriminate. by eexists.
      * intros m' rest' [= <- <-] Hne. done.
    + rewrite queue_reply_unexpected by set_solver.
      cbn. rewrite <- app_assoc. split; [done |]. split.
      * split; [done |]. intros [rest' [= -> _]]. done.
      * by intros m' rest' [= <- <-] _.
Qed.

Lemma startup_handshake_witness :
  calls (startup (mret tt) {| user := "postgres"; database := "test" |}
           {| inbound := [ReadyForQuery]; calls := [] |}).2
  = (calls {| inbound := [ReadyForQuery]; calls := [] |}
       ++ [send (SendStartup [("user", user {| user := "postgres"; database := "test" |});
                              ("database", database {| user := "postgres"; database := "test" |});
                              ("client_encoding", "'utf-8'")]);
           reply [messages.readyForQuery]])%list
  ∧ ((startup (mret tt) {| user := "postgres"; database := "test" |}
        {| inbound := [ReadyForQuery]; calls := [] |}).1 = Resolved tt
     ↔ ∃ rest, inbound {| inbound := [ReadyForQuery]; calls := [] |}
               = ReadyForQuery :: rest)
  ∧ (∀ m rest,
       inbound {| inbound := [ReadyForQuery]; calls := [] |} = m :: rest →
       kind_of m ≠ messages.readyForQuery →
       (startup (mret tt) {| user := "postgres"; database := "test" |}
          {| inbound := [ReadyForQuery]; calls := [] |}).1
       = Rejected (Desync m [messages.readyForQuery])).
Proof.
  apply (startup_handshake (mret tt) {| user := "postgres"; database := "test" |}
           {| inbound := [ReadyForQuery]; calls := [] |}
           {| inbound := [ReadyForQuery]; calls := [] |}).
  reflexivity.
Defined.

(** When the transport cannot be connected, [startup] fails the same way
    and sends nothing. *)
Lemma startup_without_transport (connect : Promise unit)
    (options : StartupOptions) (q q1 : AsyncQueue) (e : Error) :
  connect q = (Rejected e, q1) →
  startup connect options q = (Rejected e, q1).
Proof.
  intros Hconnect. unfold startup, mbind, Promise_bind.
  unfold andThen at 1. by rewrite Hconnect.
Qed.

Lemma startup_without_transport_witness :
  startup (reject TypeError) {| user := "postgres"; database := "test" |}
    {| inbound := [ReadyForQuery]; calls := [] |}
  = (Rejected TypeError, {| inbound := [ReadyForQuery]; calls := [] |}).
Proof.
  apply (startup_without_transport (reject TypeError)). reflexivity.
Defined.

(** ** The simple query executor, once more *)

(** The loop of [runQuery] passes over data rows, collecting them. *)
Lemma runQuery_loop_consume (cols : list (list Column)) :
  ∀ (fuel : nat) (resultRows : list (list string))
    (tail : list ServerMessage) (cs : list Call),
    runQuery_loop (List.length cols + fuel) resultRows
      {| inbound := (map DataRow cols ++ tail)%list; calls := cs |}
    = runQuery_loop fuel (resultRows ++ map (map value) cols)%list
        {| inbound := tail;
           calls := (cs ++ replicate (List.length cols) awaitRow)%list |}.
Proof.
  induction cols as [|row cols IH]; intros fuel resultRows tail cs.
  - cbn. by rewrite !app_nil_r.
  - cbn [List.length Nat.add runQuery_loop map app].
    unfold mbind, Promise_bind, andThen.
    rewrite queue_reply_expected by set_solver.
    cbn [has_commandTag columns_of]. rewrite IH.
    cbn [replicate]. unfold Buffer_toString, awaitRow.
    by rewrite <- !app_assoc.
Qed.

Lemma runQuery_after_description (query : string) (described : list Field)
    (cols : list (list Column)) (tail : list ServerMessage) (cs : list Call) :
  runQuery query
    {| inbound := (RowDescription described :: map DataRow cols ++ tail)%list;
       calls := cs |}
  = runQuery_loop (S (List.length tail)) (map (map value) cols)
      {| inbound := tail;
         calls := (cs ++ [send (SendQuery query); reply [messages.rowDescription]]
                     ++ replicate (List.length cols) awaitRow)%list |}.
Proof.
  unfold runQuery, mbind, Promise_bind, andThen, queue_send, backlog, logged.
  cbn [inbound calls]. rewrite queue_reply_expected by set_solver.
  cbn [inbound]. rewrite length_app, length_map, <- Nat.add_succ_r.
  rewrite runQuery_loop_consume. cbn [app]. by rewrite <- !app_assoc.
Qed.

Lemma one_more_await (cs pre : list Call) (n : nat) :
  ((cs ++ pre ++ replicate n awaitRow)
     ++ [reply [messages.dataRow; messages.commandComplete]])%list
  = (cs ++ pre ++ replicate (S n) awaitRow)%list.
Proof.
  rewrite <- !app_assoc. do 2 f_equal.
  change [reply [messages.dataRow; messages.commandComplete]]
    with (replicate 1 awaitRow).
  rewrite <- replicate_add. f_equal. lia.
Qed.

(** A resolved loop has passed over data rows up to a command-complete. *)
Lemma runQuery_loop_resolved_inv (fuel : nat) :
  ∀ (resultRows rows : list (list string)) (q q' : AsyncQueue),
    runQuery_loop fuel resultRows q = (Resolved rows, q') →
    ∃ (cols : list (list Column)) (tag : string),
      inbound q = (map DataRow cols ++ CommandComplete tag :: inbound q')%list
      ∧ rows = (resultRows ++ map (map value) cols)%list.
Proof.
  induction fuel as [|fuel IH]; intros resultRows rows q q'; [discriminate |].
  cbn [runQuery_loop]. unfold mbind, Promise_bind, andThen.
  destruct q as [[|m rest] cs]; [discriminate |].
  unfold queue_reply, logged. cbn [inbound calls].
  case_bool_decide as Hk; [| discriminate].
  destruct m; cbn [has_commandTag columns_of]; try discriminate.
  - intros Hrun. destruct (IH _ _ _ _ Hrun) as (cols & tag & Hin & ->).
    cbn [inbound] in Hin. exists (columns :: cols), tag.
    cbn [map app]. rewrite Hin. unfold Buffer_toString.
    by rewrite <- app_assoc.
  - unfold resolve. intros [= <- <-]. exists [], commandTag.
    cbn. by rewrite app_nil_r.
Qed.

(** X6: [runQuery] resolves only when the peer sent a row description,
    then data rows, then command-complete; it then returns exactly the
    texts of those rows and leaves the rest of the inbound messages
    unread. *)
Theorem runQuery_resolved_only_after_completion (query : string)
    (q q' : AsyncQueue) (rows : list (list string)) :
  runQuery query q = (Resolved rows, q') →
  ∃ (described : list Field) (cols : list (list Column)) (tag : string),
    inbound q
    = (RowDescription described :: map DataRow cols
         ++ CommandComplete tag :: inbound q')%list
    ∧ rows = map (map value) cols.
Proof.
  unfold runQuery, mbind, Promise_bind, andThen, queue_send, backlog, logged.
  destruct q as [[|m rest] cs]; cbn [inbound calls]; [discriminate |].
  unfold queue_reply, logged. cbn [inbound calls].
  case_bool_decide as Hk; [| discriminate].
  destruct m; try (exfalso; set_solver).
  cbn [inbound]. intros Hrun.
  destruct (runQuery_loop_resolved_inv _ _ _ _ _ Hrun) as (cols & tag & Hin & ->).
  cbn [inbound] in Hin. exists fields0, cols, tag. by rewrite Hin.
Qed.

Lemma runQuery_resolved_only_after_completion_witness :
  ∃ (described : list Field) (cols : list (list Column)) (tag : string),
    inbound twoColumnsProbed
    = (RowDescription described :: map DataRow cols
         ++ CommandComplete tag :: inbound twoColumnsTyped)%list
    ∧ [["23"; "int4"]] = map (map value) cols.
Proof.
  apply (runQuery_resolved_only_after_completion (typeQuery [23; 23])
           twoColumnsProbed twoColumnsTyped [["23"; "int4"]]).
  vm_compute. reflexivity.
Defined.

(** X7: without a command-complete [runQuery] never resolves: when the
    inbound messages end after the data rows it stays pending, and the rows
    received so far are not returned. *)
Theorem runQuery_no_partial_result (query : string) (described : list Field)
    (cols : list (list Column)) (cs : list Call) :
  runQuery query
    {| inbound := RowDescription described :: map DataRow cols; calls := cs |}
  = (Pending,
     {| inbound := [];
        calls := (cs ++ [send (SendQuery query); reply [messages.rowDescription]]
                    ++ replicate (S (List.length cols)) awaitRow)%list |}).
Proof.
  rewrite <- (app_nil_r (map DataRow cols)), runQuery_after_description.
  cbn [runQuery_loop List.length]. unfold mbind, Promise_bind, andThen.
  unfold queue_reply, logged. cbn [inbound calls].
  by rewrite one_more_await.
Qed.

Lemma runQuery_unexpected_first (query : string) (m : ServerMessage)
    (rest : list ServerMessage) (cs : list Call) :
  kind_of m ≠ messages.rowDescription →
  runQuery query {| inbound := m :: rest; calls := cs |}
  = (Rejected (Desync m [messages.rowDescription]),
     {| inbound := m :: rest;
        calls := (cs ++ [send (SendQuery query);
                         reply [messages.rowDescription]])%list |}).
Proof.
  intros Hk. unfold runQuery, mbind, Promise_bind, andThen, queue_send, logged.
  cbn [inbound calls]. rewrite queue_reply_unexpected by set_solver.
  by rewrite <- app_assoc.
Qed.





Lemma runQuery_loop_only_awaits (fuel : nat) :
  ∀ (resultRows : list (list string)) (q : AsyncQueue),
    ∃ later : list Call,
      calls (runQuery_loop fuel resultRows q).2 = (calls q ++ later)%list
      ∧ forallb awaits later = true.
Proof.
  induction fuel as [|fuel IH]; intros resultRows q.
  - exists []. cbn. by rewrite app_nil_r.
  - cbn [runQuery_loop]. unfold mbind, Promise_bind, andThen.
    pose proof (queue_reply_calls [messages.dataRow; messages.commandComplete] q)
      as Hcalls.
    destruct (queue_reply _ q) as [[m|e|] q1]; cbn [snd] in Hcalls;
      try by (eexists; split; [exact Hcalls | reflexivity]).
    destruct (has_commandTag m);
      [by (eexists; split; [exact Hcalls | reflexivity]) |].
    destruct (columns_of m) as [columns|];
      [| by (eexists; split; [exact Hcalls | reflexivity])].
    destruct (IH (resultRows ++ [map (λ c, Buffer_toString (value c)) columns])%list q1)
      as (later & Hlater & Honly).
    exists (reply [messages.dataRow; messages.commandComplete] :: later).
    split; [| exact Honly].
    rewrite Hlater, Hcalls, <- app_assoc. reflexivity.
Qed.

Lemma runQuery_only_awaits (query : string) (q : AsyncQueue) :
  ∃ later : list Call,
    calls (runQuery query q).2
    = (calls q ++ send (SendQuery query) :: later)%list
    ∧ forallb awaits later = true.
Proof.
  unfold runQuery, mbind, Promise_bind, andThen, queue_send, backlog.
  pose proof (queue_reply_calls [messages.rowDescription]
                (logged (send (SendQuery query)) q)) as Hcalls.
  destruct (queue_reply _ (logged _ q)) as [[m|e|] q1]; cbn [snd] in Hcalls;
    cbn [logged calls] in Hcalls; rewrite <- app_assoc in Hcalls;
    try by (eexists; split; [exact Hcalls | reflexivity]).
  destruct (runQuery_loop_only_awaits (S (List.length (inbound q1))) [] q1)
    as (later & Hlater & Honly).
  exists (reply [messages.rowDescription] :: later). split; [| exact Honly].
  rewrite Hlater, Hcalls, <- app_assoc. reflexivity.
Qed.

(** X10: whatever the peer does, [runQuery] sends exactly one message, the
    query itself, before anything else, and from then on only awaits. *)
Theorem runQuery_sends_once (query : string) (q : AsyncQueue) :
  ∃ later : list Call,
    callsSince q (runQuery query q).2 = send (SendQuery query) :: later
    ∧ forallb awaits later = true.
Proof.
  destruct (runQuery_only_awaits query q) as (later & Hcalls & Honly).
  exists later. by rewrite (callsSince_app _ _ _ Hcalls).
Qed.

(** ** The type probe, once more *)

(** X11: [getTypeData] resolves with a description only after
    parse-complete, a parameter description or no-data, a row description
    or no-data, and close-complete, in that order; no-data stands for the
    empty list, and what follows close-complete stays unread. *)
Theorem getTypeData_described_only_after (query statement : string)
    (q q' : AsyncQueue) (d : Described) :
  getTypeData query statement q = (Resolved (inl d), q') →
  ∃ (m2 m3 : ServerMessage),
    inbound q = ParseComplete :: m2 :: m3 :: CloseComplete :: inbound q'
    ∧ (m2 = ParameterDescription (params d) ∨ (m2 = NoData ∧ params d = []))
    ∧ (m3 = RowDescription (fields d) ∨ (m3 = NoData ∧ fields d = [])).
Proof.
  destruct q as [ms cs]. unfold getTypeData. promise_unfold.
  cbn [inbound calls].
  destruct ms as [|m1 ms]; [discriminate |].
  destruct m1; cbn [kind_of]; reply_decide; try discriminate.
  destruct ms as [|m2 ms]; [discriminate |].
  destruct m2; cbn [kind_of inbound calls]; reply_decide; try discriminate.
  all: destruct ms as [|m3 ms]; [discriminate |].
  all: destruct m3; cbn [kind_of inbound calls]; reply_decide; try discriminate.
  all: destruct ms as [|m4 ms]; [discriminate |].
  all: destruct m4; cbn [kind_of inbound calls]; reply_decide; try discriminate.
  all: intros [= <- <-]; cbn [inbound params fields]; eexists _, _;
    split; [reflexivity |]; split; (by left) || (by right).
Qed.

Lemma getTypeData_described_only_after_witness :
  ∃ (m2 m3 : ServerMessage),
    inbound threeParamsQueue
    = ParseComplete :: m2 :: m3 :: CloseComplete
        :: inbound (getTypeData "SELECT $1, $2, $3" "q" threeParamsQueue).2
    ∧ (m2 = ParameterDescription (params threeParams)
       ∨ (m2 = NoData ∧ params threeParams = []))
    ∧ (m3 = RowDescription (fields threeParams)
       ∨ (m3 = NoData ∧ fields threeParams = [])).
Proof.
  apply (getTypeData_described_only_after "SELECT $1, $2, $3" "q"
           threeParamsQueue
           (getTypeData "SELECT $1, $2, $3" "q" threeParamsQueue).2 threeParams).
  vm_compute. reflexivity.
Defined.

(** The parse error built from the fields of an error response. *)
Lemma getTypeData_error_inv (query statement : string) (q q' : AsyncQueue)
    (e : ParseError) :
  getTypeData query statement q = (Resolved (inr e), q') →
  ∃ errorFields : gmap string string,
    inbound q = ErrorResponse errorFields :: inbound q'
    ∧ e = {| errorCode := errorFields !! "R";
             hint := errorFields !! "H";
             message := errorFields !! "M";
             position := errorFields !! "P" |}.
Proof.
  destruct q as [ms cs]. unfold getTypeData. promise_unfold.
  cbn [inbound calls].
  destruct ms as [|m1 ms]; [discriminate |].
  destruct m1; cbn [kind_of]; reply_decide; try discriminate.
  - intros [= <- <-]. by eexists.
  - destruct ms as [|m2 ms]; [discriminate |].
    destruct m2; cbn [kind_of inbound calls]; reply_decide; try discriminate.
    all: destruct ms as [|m3 ms]; [discriminate |].
    all: destruct m3; cbn [kind_of inbound calls]; reply_decide; try discriminate.
    all: destruct ms as [|m4 ms]; [discriminate |].
    all: destruct m4; cbn [kind_of inbound calls]; reply_decide; discriminate.
Qed.

(** X12: a parse error comes from nothing but an error response that is
    the first reply of the probe: whenever [getTypeData] resolves with a
    parse error, the first inbound message was an error response, the four
    fields of the error are those tagged [R], [H], [M] and [P] (absent tags
    give undefined fields), and only that message was read. *)
Theorem getTypeData_error_only_from_response (query statement : string)
    (q q' : AsyncQueue) (e : ParseError) :
  getTypeData query statement q = (Resolved (inr e), q') →
  ∃ errorFields : gmap string string,
    inbound q = ErrorResponse errorFields :: inbound q'
    ∧ e = {| errorCode := errorFields !! "R";
             hint := errorFields !! "H";
             message := errorFields !! "M";
             position := errorFields !! "P" |}.
Proof. apply getTypeData_error_inv. Qed.

Lemma getTypeData_error_only_from_response_witness :
  ∃ errorFields : gmap string string,
    inbound {| inbound := [ErrorResponse syntaxErrorFields; ReadyForQuery];
               calls := [] |}
    = ErrorResponse errorFields
        :: inbound {| inbound := [ReadyForQuery];
                      calls := (probeSends "SELECT * FROM" "q"
                                  ++ take 1 probeAwaits)%list |}
    ∧ {| errorCode := Some "scanner_yyerror";
         hint := None;
         message := Some "syntax error at end of input";
         position := Some "14" |}
      = {| errorCode := errorFields !! "R";
           hint := errorFields !! "H";
           message := errorFields !! "M";
           position := errorFields !! "P" |}.
Proof.
  apply (getTypeData_error_only_from_response "SELECT * FROM" "q").
  vm_compute. reflexivity.
Defined.

(** X13: an error response that arrives after parse-complete, in place of
    the parameter description, the row description or close-complete, is
    not turned into a parse error: the probe rejects with a desync. *)
Theorem getTypeData_late_error_is_desync (query statement : string)
    (errorFields : gmap string string) (ps : list Param) (fs : list Field)
    (rest : list ServerMessage) (cs : list Call) :
  (getTypeData query statement
     {| inbound := ParseComplete :: ErrorResponse errorFields :: rest;
        calls := cs |}).1
  = Rejected (Desync (ErrorResponse errorFields)
                [messages.parameterDescription; messages.noData])
  ∧ (getTypeData query statement
       {| inbound := ParseComplete :: ParameterDescription ps
                       :: ErrorResponse errorFields :: rest;
          calls := cs |}).1
    = Rejected (Desync (ErrorResponse errorFields)
                  [messages.rowDescription; messages.noData])
  ∧ (getTypeData query statement
       {| inbound := ParseComplete :: ParameterDescription ps
                       :: RowDescription fs :: ErrorResponse errorFields :: rest;
          calls := cs |}).1
    = Rejected (Desync (ErrorResponse errorFields) [messages.closeComplete]).
Proof.
  unfold getTypeData. promise_unfold.
  repeat split;
    repeat (progress (cbn [inbound calls kind_of]; reply_decide)); reflexivity.
Qed.

(** ** The resolver, once more *)

Lemma only_awaits_no_query (cs : list Call) :
  forallb awaits cs = true →
  List.filter queries cs = [] ∧ existsb executes cs = false.
Proof.
  induction cs as [|c cs IH]; [done |]. cbn [forallb].
  intros [Hc Hcs]%andb_prop. destruct c; [discriminate |].
  cbn [List.filter queries existsb executes]. by apply IH.
Qed.

(** The calls of a run of [getTypes]: those of the probe, then, when the
    statement is described, those of the type query and, when that
    resolves, those of the attribute query. *)
Lemma getTypes_trace (query statement : string) (q : AsyncQueue) :
  ∃ (n : nat) (tail : list Call),
    calls (getTypes query statement q).2
    = (calls q ++ (probeSends (desugaredQuery (desugarQuery query)) statement
                     ++ take n probeAwaits) ++ tail)%list
    ∧ existsb executes tail = false
    ∧ (List.length (List.filter queries tail) ≤ 2)%nat
    ∧ match (getTypeData (desugaredQuery (desugarQuery query)) statement q).1 with
      | Resolved (inl _) => True
      | _ => tail = []
      end.
Proof.
  unfold getTypes. destruct (desugarQuery query) as [text names].
  cbn [desugaredQuery paramNames].
  destruct (getTypeData_trace text statement q) as (n & _ & Hprobe & _).
  unfold mbind, mret, Promise_bind, Promise_ret. unfold andThen at 1.
  destruct (getTypeData text statement q) as [[[d|e]|err|] q1];
    cbn [fst snd] in *.
  2-4: exists n, []; unfold resolve; cbn [snd];
       rewrite app_nil_r, Hprobe; repeat split; cbn; lia.
  destruct d as [ps fs]. unfold andThen at 1.
  destruct (runQuery_only_awaits (typeQuery (map oid ps ++ map typeOID fs)) q1)
    as (later1 & Hfirst & Honly1).
  destruct (only_awaits_no_query _ Honly1) as [Hq1 He1].
  destruct (runQuery _ q1) as [[typeRows|err|] q2]; cbn [snd] in Hfirst.
  2-3: exists n, (send (SendQuery (typeQuery (map oid ps ++ map typeOID fs)))
                    :: later1);
       cbn [snd]; rewrite Hfirst, Hprobe, <- !app_assoc;
       cbn [List.filter queries existsb executes orb];
       rewrite Hq1, He1; repeat split; cbn; lia.
  unfold andThen at 1.
  destruct (runQuery_only_awaits (attributeQuery (attrSelection fs)) q2)
    as (later2 & Hsecond & Honly2).
  destruct (only_awaits_no_query _ Honly2) as [Hq2 He2].
  exists n, ((send (SendQuery (typeQuery (map oid ps ++ map typeOID fs))) :: later1)
             ++ send (SendQuery (attributeQuery (attrSelection fs))) :: later2)%list.
  split.
  - destruct (runQuery _ q2) as [[attributeRows|err|] q3]; cbn [snd] in *;
      unfold resolve; cbn [snd];
      rewrite Hsecond, Hfirst, Hprobe, <- !app_assoc; reflexivity.
  - rewrite existsb_app, List.filter_app.
    cbn [List.filter queries existsb executes orb].
    rewrite Hq1, Hq2, He1, He2. repeat split; cbn; lia.
Qed.

(** X14: [getTypes] never sends Bind or Execute, whatever the peer
    answers; it sends at most two simple queries, and none at all unless
    the probe resolved with a description of the statement. *)
Theorem getTypes_never_executes (query statement : string) (q : AsyncQueue) :
  existsb executes (callsSince q (getTypes query statement q).2) = false
  ∧ (List.length (List.filter queries
                    (callsSince q (getTypes query statement q).2)) ≤ 2)%nat
  ∧ match (getTypeData (desugaredQuery (desugarQuery query)) statement q).1 with
    | Resolved (inl _) => True
    | _ => List.filter queries (callsSince q (getTypes query statement q).2) = []
    end.
Proof.
  destruct (getTypes_trace query statement q)
    as (n & tail & Hcalls & Hexec & Hcount & Hnone).
  rewrite (callsSince_app _ _ _ Hcalls).
  assert (Hprobe_exec :
    existsb executes (probeSends (desugaredQuery (desugarQuery query)) statement
                        ++ take n probeAwaits) = false).
  { rewrite existsb_app. cbn [probeSends existsb executes orb].
    do 5 (destruct n as [|n]; [reflexivity |]). reflexivity. }
  assert (Hprobe_query :
    List.filter queries (probeSends (desugaredQuery (desugarQuery query)) statement
                           ++ take n probeAwaits) = []).
  { rewrite List.filter_app. cbn [probeSends List.filter queries app].
    do 5 (destruct n as [|n]; [reflexivity |]). reflexivity. }
  rewrite existsb_app, List.filter_app, Hprobe_exec, Hprobe_query, Hexec.
  cbn [app orb]. split; [done |]. split; [done |].
  destruct (getTypeData _ statement q).1 as [[d|e]|err|]; try done;
    by rewrite Hnone.
Qed.

(** X15: when [getTypes] resolves with a parse error, the first reply to
    the probe was an error response, the error is built from its fields
    tagged [R], [H], [M] and [P], and the calls of the run were the four
    sends of the probe and its first await: no catalog query was sent. *)
Theorem getTypes_error_only_from_response (query statement : string)
    (q q' : AsyncQueue) (e : ParseError) :
  getTypes query statement q = (Resolved (inr e), q') →
  ∃ errorFields : gmap string string,
    inbound q = ErrorResponse errorFields :: inbound q'
    ∧ e = {| errorCode := errorFields !! "R";
             hint := errorFields !! "H";
             message := errorFields !! "M";
             position := errorFields !! "P" |}
    ∧ callsSince q q'
      = (probeSends (desugaredQuery (desugarQuery query)) statement
           ++ take 1 probeAwaits)%list.
Proof.
  intros Hrun.
  assert (Hprobe : getTypeData (desugaredQuery (desugarQuery query)) statement q
                   = (Resolved (inr e), q')).
  { revert Hrun. unfold getTypes. destruct (desugarQuery query) as [text names].
    cbn [desugaredQuery]. unfold mbind, mret, Promise_bind, Promise_ret.
    unfold andThen at 1.
    destruct (getTypeData text statement q) as [[[d|e']|err|] q1];
      try discriminate.
    - destruct d as [ps fs]. unfold andThen at 1.
      destruct (runQuery _ q1) as [[typeRows|err|] q2]; try discriminate.
      unfold andThen at 1.
      destruct (runQuery _ q2) as [[attributeRows|err|] q3]; discriminate.
    - unfold resolve. by intros [= <- <-]. }
  destruct (getTypeData_error_inv _ _ _ _ _ Hprobe) as (errorFields & Hin & He).
  exists errorFields. split; [done |]. split; [done |].
  destruct (getTypeData_trace (desugaredQuery (desugarQuery query)) statement q)
    as (n & _ & Hcalls & Hout).
  rewrite Hprobe in Hcalls, Hout. cbn [fst snd] in Hcalls, Hout. subst n.
  by apply callsSince_app.
Qed.

Lemma getTypes_error_only_from_response_witness :
  ∃ errorFields : gmap string string,
    inbound {| inbound := [ErrorResponse syntaxErrorFields; ReadyForQuery];
               calls := [] |}
    = ErrorResponse errorFields
        :: inbound (getTypes "SELECT * FROM" "q"
                      {| inbound := [ErrorResponse syntaxErrorFields; ReadyForQuery];
                         calls := [] |}).2
    ∧ {| errorCode := Some "scanner_yyerror";
         hint := None;
         message := Some "syntax error at end of input";
         position := Some "14" |}
      = {| errorCode := errorFields !! "R";
           hint := errorFields !! "H";
           message := errorFields !! "M";
           position := errorFields !! "P" |}
    ∧ callsSince
        {| inbound := [ErrorResponse syntaxErrorFields; ReadyForQuery];
           calls := [] |}
        (getTypes "SELECT * FROM" "q"
           {| inbound := [ErrorResponse syntaxErrorFields; ReadyForQuery];
              calls := [] |}).2
      = (probeSends (desugaredQuery (desugarQuery "SELECT * FROM")) "q"
           ++ take 1 probeAwaits)%list.
Proof.
  apply (getTypes_error_only_from_response "SELECT * FROM" "q").
  vm_compute. reflexivity.
Defined.

(** X16: for a statement described with no parameter and no column, the
    type query is sent with an empty list, [... where oid in ()]; when the
    peer answers it with an error response, [getTypes] rejects with a
    desync, not with a parse error, and the attribute query is not sent. *)
Theorem getTypes_empty_statement (query statement : string)
    (errorFields : gmap string string) (rest : list ServerMessage)
    (cs : list Call) :
  getTypes query statement
    {| inbound :=
         (describeReplies {| params := []; fields := [] |}
            ++ ErrorResponse errorFields :: rest)%list;
       calls := cs |}
  = (Rejected (Desync (ErrorResponse errorFields) [messages.rowDescription]),
     {| inbound := ErrorResponse errorFields :: rest;
        calls :=
          ((cs ++ probeSends (desugaredQuery (desugarQuery query)) statement
               ++ probeAwaits)
             ++ [send (SendQuery "select oid, typname from pg_type where oid in ()");
                 reply [messages.rowDescription]])%list |}).
Proof.
  unfold getTypes. destruct (desugarQuery query) as [text names].
  cbn [desugaredQuery]. unfold mbind, mret, Promise_bind, Promise_ret.
  unfold andThen at 1. rewrite getTypeData_described. unfold andThen at 1.
  cbn [map app]. by rewrite runQuery_unexpected_first.
Qed.

(** *** Return types *)

Lemma returnType_names (attrMap : gmap string Js.object) (typeMap : Js.object)
    (f : Field) :
  returnType attrMap typeMap f !! "returnName" = Some (Js.str (name f))
  ∧ returnType attrMap typeMap f !! "typeName"
    = Some (Js.get typeMap (Js.number (typeOID f))).
Proof.
  unfold returnType, Js.set. cbn [Js.toString]. split; by simplify_map_eq.
Qed.

Lemma returnType_attribute (attrMap : gmap string Js.object)
    (typeMap : Js.object) (f : Field) (k : string) :
  k ≠ "returnName" → k ≠ "typeName" →
  returnType attrMap typeMap f !! k
  = default ∅ (attrMap !! attrKey f) !! k.
Proof.
  intros Hr Ht. unfold returnType, Js.set, Js.spread. cbn [Js.toString].
  rewrite !lookup_insert_ne by done. by rewrite (right_id_L ∅ (∪)).
Qed.

(** X17: [returnTypes] lines up with the described fields: it has one
    element per field, in the order of the fields, and the element of a
    field always holds that field's name as [returnName] and the type
    name resolved for its type OID as [typeName]. *)
Theorem getTypes_returnTypes_follow_fields (query statement : string)
    (q q' : AsyncQueue) (r : TQueryTypes) :
  getTypes query statement q = (Resolved (inl r), q') →
  ∃ (d : Described) (q1 : AsyncQueue) (typeRows : list (list string))
    (q2 : AsyncQueue),
    getTypeData (desugaredQuery (desugarQuery query)) statement q
    = (Resolved (inl d), q1)
    ∧ runQuery (typeQuery (map oid (params d) ++ map typeOID (fields d))) q1
      = (Resolved typeRows, q2)
    ∧ List.length (returnTypes r) = List.length (fields d)
    ∧ ∀ (i : nat) (f : Field),
        fields d !! i = Some f →
        ∃ entry : Js.object,
          returnTypes r !! i = Some entry
          ∧ entry !! "returnName" = Some (Js.str (name f))
          ∧ entry !! "typeName"
            = Some (Js.get (typeMap_of typeRows) (Js.number (typeOID f))).
Proof.
  intros Hrun.
  destruct (getTypes_resolved_inv _ _ _ _ _ Hrun)
    as (d & q1 & typeRows & q2 & attributeRows & Hprobe & Htypes & _ & ->).
  exists d, q1, typeRows, q2. cbn [returnTypes].
  split; [done |]. split; [done |]. split; [by rewrite length_map |].
  intros i f Hf. eexists. split; [by rewrite list_lookup_fmap, Hf |].
  apply returnType_names.
Qed.

Lemma getTypes_returnTypes_follow_fields_witness :
  ∃ (d : Described) (q1 : AsyncQueue) (typeRows : list (list string))
    (q2 : AsyncQueue),
    getTypeData (desugaredQuery (desugarQuery twoColumnsText)) "q" twoColumnsQueue
    = (Resolved (inl d), q1)
    ∧ runQuery (typeQuery (map oid (params d) ++ map typeOID (fields d))) q1
      = (Resolved typeRows, q2)
    ∧ List.length (returnTypes twoColumnsResult) = List.length (fields d)
    ∧ ∀ (i : nat) (f : Field),
        fields d !! i = Some f →
        ∃ entry : Js.object,
          returnTypes twoColumnsResult !! i = Some entry
          ∧ entry !! "returnName" = Some (Js.str (name f))
          ∧ entry !! "typeName"
            = Some (Js.get (typeMap_of typeRows) (Js.number (typeOID f))).
Proof.
  apply (getTypes_returnTypes_follow_fields twoColumnsText "q" twoColumnsQueue
           twoColumnsDone twoColumnsResult).
  vm_compute. reflexivity.
Defined.

(** An entry of the attribute map is the attribute information of one of
    the rows that carry its key. *)
Lemma attrMap_of_lookup_inv (attributeRows : list (list string))
    (key : string) (info : Js.object) :
  attrMap_of attributeRows !! key = Some info →
  ∃ row : list string,
    row ∈ attributeRows
    ∧ Js.toString (Js.index Js.str row 0) = key
    ∧ info = attrInfo (Js.index Js.str row 1) (Js.index Js.str row 2).
Proof.
  revert key info.
  induction attributeRows as [|row rows IH] using rev_ind; intros key info Hinfo.
  - unfold attrMap_of in Hinfo. cbn [fold_left] in Hinfo.
    by rewrite lookup_empty in Hinfo.
  - rewrite attrMap_of_snoc in Hinfo.
    destruct (decide (Js.toString (Js.index Js.str row 0) = key)) as [Hkey|Hkey].
    + rewrite Hkey, lookup_insert_eq in Hinfo. injection Hinfo as <-.
      exists row. split; [set_solver | done].
    + rewrite lookup_insert_ne in Hinfo by done.
      destruct (IH key info Hinfo) as (row' & Hin & Hrest).
      exists row'. split; [set_solver | done].
Qed.

(** X18: a field whose (tableOID, columnAttrNumber) key has an entry in
    the attribute map gets, besides [returnName] and [typeName], the
    [columnName] and the [nullable] flag of a catalog row that carries its
    key: the second column of that row, and whether its third column
    differs from [t]. *)
Theorem getTypes_field_with_attribute (query statement : string)
    (q q' : AsyncQueue) (r : TQueryTypes) :
  getTypes query statement q = (Resolved (inl r), q') →
  ∃ (d : Described) (q1 : AsyncQueue) (typeRows : list (list string))
    (q2 : AsyncQueue) (attributeRows : list (list string)),
    getTypeData (desugaredQuery (desugarQuery query)) statement q
    = (Resolved (inl d), q1)
    ∧ runQuery (typeQuery (map oid (params d) ++ map typeOID (fields d))) q1
      = (Resolved typeRows, q2)
    ∧ runQuery (attributeQuery (attrSelection (fields d))) q2
      = (Resolved attributeRows, q')
    ∧ ∀ (i : nat) (f : Field) (info : Js.object),
        fields d !! i = Some f →
        attrMap_of attributeRows !! attrKey f = Some info →
        ∃ (entry : Js.object) (row : list string),
          returnTypes r !! i = Some entry
          ∧ row ∈ attributeRows
          ∧ Js.toString (Js.index Js.str row 0) = attrKey f
          ∧ entry !! "columnName" = Some (Js.index Js.str row 1)
          ∧ entry !! "nullable"
            = Some (Js.boolean (bool_decide (Js.index Js.str row 2 ≠ Js.str "t")))
          ∧ entry !! "returnName" = Some (Js.str (name f))
          ∧ entry !! "typeName"
            = Some (Js.get (typeMap_of typeRows) (Js.number (typeOID f))).
Proof.
  intros Hrun.
  destruct (getTypes_resolved_inv _ _ _ _ _ Hrun)
    as (d & q1 & typeRows & q2 & attributeRows & Hprobe & Htypes & Hattrs & ->).
  exists d, q1, typeRows, q2, attributeRows. cbn [returnTypes].
  split; [done |]. split; [done |]. split; [done |].
  intros i f info Hf Hinfo.
  destruct (attrMap_of_lookup_inv _ _ _ Hinfo) as (row & Hin & Hkey & ->).
  eexists _, row. split; [by rewrite list_lookup_fmap, Hf |].
  split; [done |]. split; [done |].
  rewrite !returnType_attribute by done. rewrite Hinfo. cbn [from_option id].
  rewrite attrInfo_columnName, attrInfo_nullable.
  split; [done |]. split; [done |]. apply returnType_names.
Qed.

Lemma getTypes_field_with_attribute_witness :
  ∃ (d : Described) (q1 : AsyncQueue) (typeRows : list (list string))
    (q2 : AsyncQueue) (attributeRows : list (list string)),
    getTypeData (desugaredQuery (desugarQuery twoColumnsText)) "q" twoColumnsQueue
    = (Resolved (inl d), q1)
    ∧ runQuery (typeQuery (map oid (params d) ++ map typeOID (fields d))) q1
      = (Resolved typeRows, q2)
    ∧ runQuery (attributeQuery (attrSelection (fields d))) q2
      = (Resolved attributeRows, twoColumnsDone)
    ∧ ∀ (i : nat) (f : Field) (info : Js.object),
        fields d !! i = Some f →
        attrMap_of attributeRows !! attrKey f = Some info →
        ∃ (entry : Js.object) (row : list string),
          returnTypes twoColumnsResult !! i = Some entry
          ∧ row ∈ attributeRows
          ∧ Js.toString (Js.index Js.str row 0) = attrKey f
          ∧ entry !! "columnName" = Some (Js.index Js.str row 1)
          ∧ entry !! "nullable"
            = Some (Js.boolean (bool_decide (Js.index Js.str row 2 ≠ Js.str "t")))
          ∧ entry !! "returnName" = Some (Js.str (name f))
          ∧ entry !! "typeName"
            = Some (Js.get (typeMap_of typeRows) (Js.number (typeOID f))).
Proof.
  apply (getTypes_field_with_attribute twoColumnsText "q" twoColumnsQueue
           twoColumnsDone twoColumnsResult).
  vm_compute. reflexivity.
Defined.

(** *** Keys *)

Lemma split_at_colon (a : string) :
  ∀ (a' b b' : string),
    count_colons a = 0%nat → count_colons a' = 0%nat →
    a +:+ ":" +:+ b = a' +:+ ":" +:+ b' → a = a' ∧ b = b'.
Proof.
  induction a as [|c a IH]; intros a' b b' Ha Ha' Heq.
  - destruct a' as [|c' a'].
    + rewrite !append_empty_l in Heq. by injection Heq.
    + rewrite append_empty_l, append_cons in Heq. injection Heq as <- _.
      cbn [count_colons] in Ha'. change (is_colon ":") with true in Ha'.
      cbn [Nat.add] in Ha'. lia.
  - cbn [count_colons] in Ha.
    destruct (is_colon c) eqn:Hc; cbn [Nat.add] in Ha; [lia |].
    destruct a' as [|c' a'].
    + rewrite append_empty_l, append_cons in Heq. injection Heq as -> _.
      discriminate Hc.
    + rewrite !append_cons in Heq. injection Heq as <- Heq.
      cbn [count_colons] in Ha'. rewrite Hc in Ha'. cbn [Nat.add] in Ha'.
      destruct (IH a' b b') as [-> ->]; done.
Qed.

Lemma colon_key_inj (t a t' a' : Z) :
  pretty t +:+ ":" +:+ pretty a = pretty t' +:+ ":" +:+ pretty a' →
  t = t' ∧ a = a'.
Proof.
  intros Heq.
  apply split_at_colon in Heq as [Ht Ha]; [| apply pretty_Z_colons ..].
  split; by apply (inj pretty).
Qed.

(** X19: the key under which attribute information is stored and looked
    up tells fields apart exactly by their table and attribute number: two
    fields have the same key if and only if they agree on both. *)
Theorem attrKey_injective (f g : Field) :
  attrKey f = attrKey g
  ↔ tableOID f = tableOID g ∧ columnAttrNumber f = columnAttrNumber g.
Proof.
  unfold attrKey. cbn [Js.toString]. split.
  - apply colon_key_inj.
  - by intros [-> ->].
Qed.

(** *** Against a catalog *)

Lemma typeMap_of_snoc (rows : list (list string)) (row : list string) :
  typeMap_of (rows ++ [row])
  = Js.set (typeMap_of rows) (Js.index Js.str row 0) (Js.index Js.str row 1).
Proof. unfold typeMap_of. by rewrite fold_left_app. Qed.

Lemma typeMap_of_catalog_lookup (types : list (Z * string)) :
  NoDup types.*1 →
  ∀ o : Z,
    typeMap_of (map typeRow types) !! pretty o
    = Js.str <$> catalogTypes types !! o.
Proof.
  unfold catalogTypes.
  induction types as [|[o' tn'] types IH] using rev_ind; intros Hnodup o.
  - unfold typeMap_of. cbn. by rewrite !lookup_empty.
  - rewrite fmap_app in Hnodup. apply NoDup_app in Hnodup as (Hnd & Hfresh & _).
    rewrite map_app. cbn [map]. rewrite typeMap_of_snoc.
    unfold typeRow, Js.set, Js.index. cbn [fst snd lookup list_lookup from_option Js.toString].
    assert (Hnone : (list_to_map types : gmap Z string) !! o' = None).
    { apply not_elem_of_list_to_map_1. intros Hin. apply (Hfresh o' Hin).
      cbn. set_solver. }
    rewrite list_to_map_app, lookup_union.
    destruct (decide (o = o')) as [->|Hne].
    + rewrite lookup_insert_eq, Hnone. cbn. by rewrite lookup_insert_eq.
    + rewrite lookup_insert_ne by (intros Heq; by apply (inj pretty) in Heq).
      rewrite IH by done. cbn. rewrite lookup_insert_ne by done.
      rewrite lookup_empty. by destruct (list_to_map types !! o).
Qed.

Lemma typeMap_of_catalog_get (types : list (Z * string)) (o : Z) :
  NoDup types.*1 →
  Js.get (typeMap_of (map typeRow types)) (Js.number o)
  = from_option Js.str Js.undefined (catalogTypes types !! o).
Proof.
  intros Hnodup. unfold Js.get. cbn [Js.toString].
  rewrite typeMap_of_catalog_lookup by done.
  by destruct (catalogTypes types !! o).
Qed.

(** X20: when the rows of the type query are those of a catalog with one
    row per OID, the type map resolves an OID to the catalog's name for
    it, and to [undefined] when the catalog has no row for it. *)
Theorem typeMap_of_catalog (types : list (Z * string)) (o : Z) :
  NoDup types.*1 →
  Js.get (typeMap_of (map typeRow types)) (Js.number o)
  = from_option Js.str Js.undefined (catalogTypes types !! o).
Proof. apply typeMap_of_catalog_get. Qed.

Lemma typeMap_of_catalog_witness :
  Js.get (typeMap_of (map typeRow [(23, "int4"); (25, "text")])) (Js.number 25)
  = from_option Js.str Js.undefined
      (catalogTypes [(23, "int4"); (25, "text")] !! 25).
Proof.
  apply (typeMap_of_catalog [(23, "int4"); (25, "text")] 25).
  compute_done.
Defined.

Lemma attrMap_of_catalog_lookup (cols : list CatalogColumn) (c : CatalogColumn) :
  NoDup (map columnId cols) →
  c ∈ cols →
  attrMap_of (map attributeRow cols)
    !! (pretty (attrelid c) +:+ ":" +:+ pretty (attnum c))
  = Some (attrInfo (Js.str (attname c))
            (Js.str (if attnotnull c then "t" else "f"))).
Proof.
  induction cols as [|c' cols IH] using rev_ind; intros Hnodup Hin.
  - by apply elem_of_nil in Hin.
  - rewrite map_app in Hnodup. apply NoDup_app in Hnodup as (Hnd & Hfresh & _).
    rewrite map_app. cbn [map]. rewrite attrMap_of_snoc.
    unfold attributeRow at 1 2 3, Js.index.
    cbn [lookup list_lookup from_option Js.toString].
    apply elem_of_app in Hin as [Hin | ->%list_elem_of_singleton].
    + rewrite lookup_insert_ne; [by apply IH |].
      intros [Hrel Hnum]%colon_key_inj.
      apply (Hfresh (columnId c)).
      * apply list_elem_of_fmap. by exists c.
      * unfold columnId. rewrite <- Hrel, <- Hnum. cbn. set_solver.
    + by rewrite lookup_insert_eq.
Qed.

Lemma attrMap_of_catalog_none (cols : list CatalogColumn) (f : Field) :
  (∀ c, c ∈ cols → columnId c ≠ (tableOID f, columnAttrNumber f)) →
  attrMap_of (map attributeRow cols) !! attrKey f = None.
Proof.
  intros Hnone. destruct (attrMap_of _ !! attrKey f) as [info|] eqn:Hinfo; [|done].
  destruct (attrMap_of_lookup_inv _ _ _ Hinfo) as (row & Hin & Hkey & _).
  apply list_elem_of_fmap in Hin as (c & -> & Hc).
  unfold attributeRow, Js.index, attrKey in Hkey.
  cbn [lookup list_lookup from_option Js.toString] in Hkey.
  apply colon_key_inj in Hkey as [Hrel Hnum].
  destruct (Hnone c Hc). unfold columnId. by rewrite Hrel, Hnum.
Qed.

Lemma returnType_with_info (attrMap : gmap string Js.object)
    (typeMap : Js.object) (f : Field) (attname' attnotnull' : Js.value) :
  attrMap !! attrKey f = Some (attrInfo attname' attnotnull') →
  returnType attrMap typeMap f
  = {[ "columnName" := attname';
       "nullable" := Js.boolean (bool_decide (attnotnull' ≠ Js.str "t"));
       "returnName" := Js.str (name f);
       "typeName" := Js.get typeMap (Js.number (typeOID f)) ]}.
Proof.
  intros Hinfo. unfold returnType, Js.spread. rewrite Hinfo.
  unfold attrInfo, Js.set. cbn [from_option id Js.toString].
  rewrite (right_id_L ∅ (∪)).
  apply map_eq. intros k.
  destruct (decide (k = "typeName")) as [->|?]; [by simplify_map_eq |].
  destruct (decide (k = "returnName")) as [->|?]; [by simplify_map_eq |].
  destruct (decide (k = "nullable")) as [->|?]; [by simplify_map_eq |].
  destruct (decide (k = "columnName")) as [->|?]; by simplify_map_eq.
Qed.

Lemma returnType_catalog (cols : list CatalogColumn)
    (c : CatalogColumn) (typeMap : Js.object) (f : Field) :
  NoDup (map columnId cols) →
  c ∈ cols →
  columnId c = (tableOID f, columnAttrNumber f) →
  returnType (attrMap_of (map attributeRow cols)) typeMap f
  = {[ "columnName" := Js.str (attname c);
       "nullable" := Js.boolean (negb (attnotnull c));
       "returnName" := Js.str (name f);
       "typeName" := Js.get typeMap (Js.number (typeOID f)) ]}.
Proof.
  intros Hnodup Hin [= Hrel Hnum].
  rewrite (returnType_with_info _ _ _ (Js.str (attname c))
             (Js.str (if attnotnull c then "t" else "f"))).
  - by destruct (attnotnull c).
  - unfold attrKey. cbn [Js.toString]. rewrite <- Hrel, <- Hnum.
    by apply attrMap_of_catalog_lookup.
Qed.

(** X21: when the rows of the attribute query are those of a catalog with
    one row per column, the element of [returnTypes] for a field backed by
    one of these columns has exactly four properties: the column's name,
    [nullable] as the negation of its not-null flag, the field's name and
    the resolved type name. *)
Theorem returnType_of_catalog_column (cols : list CatalogColumn)
    (c : CatalogColumn) (typeMap : Js.object) (f : Field) :
  NoDup (map columnId cols) →
  c ∈ cols →
  columnId c = (tableOID f, columnAttrNumber f) →
  returnType (attrMap_of (map attributeRow cols)) typeMap f
  = {[ "columnName" := Js.str (attname c);
       "nullable" := Js.boolean (negb (attnotnull c));
       "returnName" := Js.str (name f);
       "typeName" := Js.get typeMap (Js.number (typeOID f)) ]}.
Proof. apply returnType_catalog. Qed.

Lemma returnType_of_catalog_column_witness :
  returnType (attrMap_of (map attributeRow [userIdColumn])) ∅ userIdField
  = {[ "columnName" := Js.str (attname userIdColumn);
       "nullable" := Js.boolean (negb (attnotnull userIdColumn));
       "returnName" := Js.str (name userIdField);
       "typeName" := Js.get ∅ (Js.number (typeOID userIdField)) ]}.
Proof.
  apply (returnType_of_catalog_column [userIdColumn] userIdColumn ∅ userIdField);
    [compute_done | apply list_elem_of_singleton; reflexivity | reflexivity].
Defined.

(** X22: against a peer that describes the statement and answers the two
    catalog queries from a catalog with one row per type OID and one row
    per column, [getTypes] resolves, leaves what follows unread, and its
    result is the catalog's view of the statement: a placeholder name
    other than [__proto__] that does not recur at a later parameter maps
    to the catalog's name of the type of the parameter at its position; a
    field backed by a catalog
    column carries that column's name and nullability; a field backed by
    none has [returnName] and [typeName] only. *)
Theorem getTypes_against_catalog (query statement : string) (d : Described)
    (types : list (Z * string)) (cols : list CatalogColumn)
    (rest : list ServerMessage) (cs : list Call) :
  NoDup types.*1 →
  NoDup (map columnId cols) →
  ∃ (r : TQueryTypes) (q' : AsyncQueue),
    getTypes query statement
      {| inbound :=
           (resolvingScript d (map typeRow types) (map attributeRow cols)
              ++ rest)%list;
         calls := cs |}
    = (Resolved (inl r), q')
    ∧ inbound q' = rest
    ∧ (∀ (i : nat) (p : Param),
         params d !! i = Some p →
         paramKey (paramNames (desugarQuery query)) i ≠ "__proto__" →
         (∀ j, (i < j < List.length (params d))%nat →
               paramKey (paramNames (desugarQuery query)) j
               ≠ paramKey (paramNames (desugarQuery query)) i) →
         paramTypes r !! paramKey (paramNames (desugarQuery query)) i
         = Some (from_option Js.str Js.undefined (catalogTypes types !! oid p)))
    ∧ (∀ (i : nat) (f : Field) (c : CatalogColumn),
         fields d !! i = Some f →
         c ∈ cols →
         columnId c = (tableOID f, columnAttrNumber f) →
         returnTypes r !! i
         = Some {[ "columnName" := Js.str (attname c);
                   "nullable" := Js.boolean (negb (attnotnull c));
                   "returnName" := Js.str (name f);
                   "typeName" :=
                     from_option Js.str Js.undefined
                       (catalogTypes types !! typeOID f) ]})
    ∧ (∀ (i : nat) (f : Field),
         fields d !! i = Some f →
         (∀ c, c ∈ cols → columnId c ≠ (tableOID f, columnAttrNumber f)) →
         returnTypes r !! i
         = Some {[ "returnName" := Js.str (name f);
                   "typeName" :=
                     from_option Js.str Js.undefined
                       (catalogTypes types !! typeOID f) ]}).
Proof.
  intros Htypes Hcols.
  destruct (getTypes_resolves query statement d (map typeRow types)
              (map attributeRow cols) rest cs) as (q' & Hrun & Hrest).
  eexists _, q'. split; [exact Hrun |]. split; [exact Hrest |].
  cbn [paramTypes returnTypes]. split; [| split].
  - intros i p Hp Hproto Hlast.
    rewrite <- (typeMap_of_catalog_get types (oid p)) by done.
    by apply paramTypes_of_last.
  - intros i f c Hf Hc Hid. rewrite list_lookup_fmap, Hf. cbn [fmap option_fmap option_map].
    f_equal. rewrite <- (typeMap_of_catalog_get types (typeOID f)) by done.
    by apply returnType_catalog.
  - intros i f Hf Hnone. rewrite list_lookup_fmap, Hf. cbn [fmap option_fmap option_map].
    f_equal. rewrite <- (typeMap_of_catalog_get types (typeOID f)) by done.
    apply returnType_without_attribute. by apply attrMap_of_catalog_none.
Qed.

Lemma getTypes_against_catalog_witness :
  ∃ (r : TQueryTypes) (q' : AsyncQueue),
    getTypes "SELECT userId FROM users WHERE userId = :userId" "q"
      {| inbound :=
           (resolvingScript userById (map typeRow [(23, "int4")])
              (map attributeRow [userIdColumn]) ++ [])%list;
         calls := [] |}
    = (Resolved (inl r), q')
    ∧ inbound q' = []
    ∧ (∀ (i : nat) (p : Param),
         params userById !! i = Some p →
         paramKey (paramNames (desugarQuery
            "SELECT userId FROM users WHERE userId = :userId")) i
         ≠ "__proto__" →
         (∀ j, (i < j < List.length (params userById))%nat →
               paramKey (paramNames (desugarQuery
                  "SELECT userId FROM users WHERE userId = :userId")) j
               ≠ paramKey (paramNames (desugarQuery
                  "SELECT userId FROM users WHERE userId = :userId")) i) →
         paramTypes r !! paramKey (paramNames (desugarQuery
            "SELECT userId FROM users WHERE userId = :userId")) i
         = Some (from_option Js.str Js.undefined
                   (catalogTypes [(23, "int4")] !! oid p)))
    ∧ (∀ (i : nat) (f : Field) (c : CatalogColumn),
         fields userById !! i = Some f →
         c ∈ [userIdColumn] →
         columnId c = (tableOID f, columnAttrNumber f) →
         returnTypes r !! i
         = Some {[ "columnName" := Js.str (attname c);
                   "nullable" := Js.boolean (negb (attnotnull c));
                   "returnName" := Js.str (name f);
                   "typeName" :=
                     from_option Js.str Js.undefined
                       (catalogTypes [(23, "int4")] !! typeOID f) ]})
    ∧ (∀ (i : nat) (f : Field),
         fields userById !! i = Some f →
         (∀ c, c ∈ [userIdColumn] →
               columnId c ≠ (tableOID f, columnAttrNumber f)) →
         returnTypes r !! i
         = Some {[ "returnName" := Js.str (name f);
                   "typeName" :=
                     from_option Js.str Js.undefined
                       (catalogTypes [(23, "int4")] !! typeOID f) ]}).
Proof.
  apply (getTypes_against_catalog
           "SELECT userId FROM users WHERE userId = :userId" "q" userById
           [(23, "int4")] [userIdColumn] [] []); compute_done.
Defined.

(** *** How many parameters are typed *)

Lemma size_list_to_set_le (l : list string) :
  (size (list_to_set l : gset string) ≤ List.length l)%nat.
Proof.
  induction l as [|x l IH]; [cbn [list_to_set]; by rewrite size_empty |].
  cbn [list_to_set List.length].
  destruct (decide (x ∈ (list_to_set l : gset string))) as [Hin|Hout].
  - replace ({[x]} ∪ list_to_set l : gset string) with (list_to_set l : gset string)
      by set_solver. lia.
  - rewrite size_union by set_solver. rewrite size_singleton. lia.
Qed.

Lemma filter_without_proto (l : list string) :
  "__proto__" ∉ l → filter (λ k, k ≠ "__proto__") l = l.
Proof.
  induction l as [|x l IH]; intros Hout; [done |].
  rewrite filter_cons, decide_True by set_solver.
  f_equal. apply IH. set_solver.
Qed.

(** X23: [paramTypes] never has more properties than the peer reported
    parameters; it has exactly that many when the names recorded for those
    parameters are pairwise different and none of them is [__proto__]. *)
Theorem getTypes_paramTypes_size (query statement : string)
    (q q' : AsyncQueue) (r : TQueryTypes) :
  getTypes query statement q = (Resolved (inl r), q') →
  ∃ (d : Described) (q1 : AsyncQueue),
    getTypeData (desugaredQuery (desugarQuery query)) statement q
    = (Resolved (inl d), q1)
    ∧ (size (paramTypes r) ≤ List.length (params d))%nat
    ∧ ((List.length (params d)
        ≤ List.length (paramNames (desugarQuery query)))%nat →
       NoDup (take (List.length (params d)) (paramNames (desugarQuery query))) →
       "__proto__" ∉ take (List.length (params d))
                      (paramNames (desugarQuery query)) →
       size (paramTypes r) = List.length (params d)).
Proof.
  intros Hrun.
  destruct (getTypes_resolved_inv _ _ _ _ _ Hrun)
    as (d & q1 & typeRows & q2 & attributeRows & Hprobe & _ & _ & ->).
  exists d, q1. cbn [paramTypes]. split; [done |].
  rewrite <- !size_dom, paramTypes_of_dom. split.
  - etrans; [apply size_list_to_set_le |].
    etrans; [apply length_filter |]. by rewrite length_map, length_seq.
  - intros Hle Hnodup Hproto. rewrite paramKey_take by done.
    rewrite size_list_to_set by (by apply NoDup_filter).
    rewrite filter_without_proto by done. rewrite length_take. lia.
Qed.

Lemma getTypes_paramTypes_size_witness :
  ∃ (d : Described) (q1 : AsyncQueue),
    getTypeData (desugaredQuery (desugarQuery "SELECT :a, :b, :a")) "q"
      threeParamsQueue
    = (Resolved (inl d), q1)
    ∧ (size (paramTypes threeParamsResult) ≤ List.length (params d))%nat
    ∧ ((List.length (params d)
        ≤ List.length (paramNames (desugarQuery "SELECT :a, :b, :a")))%nat →
       NoDup (take (List.length (params d))
                (paramNames (desugarQuery "SELECT :a, :b, :a"))) →
       "__proto__" ∉ take (List.length (params d))
                      (paramNames (desugarQuery "SELECT :a, :b, :a")) →
       size (paramTypes threeParamsResult) = List.length (params d)).
Proof.
  apply (getTypes_paramTypes_size "SELECT :a, :b, :a" "q" threeParamsQueue
           (getTypes "SELECT :a, :b, :a" "q" threeParamsQueue).2
           threeParamsResult).
  vm_compute. reflexivity.
Defined.

(** *** Which entry a name keeps *)

(** X24: in every resolved run, a recorded name other than [__proto__]
    keeps the entry written for the last parameter index that carries it:
    the type name resolved for that parameter's OID.  When the same name
    stands at two indices, the entry written for the later one replaces
    the earlier one. *)
Theorem getTypes_paramTypes_last_write (query statement : string)
    (q q' : AsyncQueue) (r : TQueryTypes) :
  getTypes query statement q = (Resolved (inl r), q') →
  ∃ (d : Described) (q1 : AsyncQueue) (typeRows : list (list string))
    (q2 : AsyncQueue),
    getTypeData (desugaredQuery (desugarQuery query)) statement q
    = (Resolved (inl d), q1)
    ∧ runQuery (typeQuery (map oid (params d) ++ map typeOID (fields d))) q1
      = (Resolved typeRows, q2)
    ∧ (∀ (i : nat) (param : Param),
         params d !! i = Some param →
         paramKey (paramNames (desugarQuery query)) i ≠ "__proto__" →
         (∀ j, (i < j < List.length (params d))%nat →
               paramKey (paramNames (desugarQuery query)) j
               ≠ paramKey (paramNames (desugarQuery query)) i) →
         paramTypes r !! paramKey (paramNames (desugarQuery query)) i
         = Some (Js.get (typeMap_of typeRows) (Js.number (oid param))))
    ∧ (∀ (i j : nat) (earlier later : Param),
         (i < j)%nat →
         params d !! i = Some earlier →
         params d !! j = Some later →
         paramKey (paramNames (desugarQuery query)) i
         = paramKey (paramNames (desugarQuery query)) j →
         paramKey (paramNames (desugarQuery query)) j ≠ "__proto__" →
         (∀ k, (j < k < List.length (params d))%nat →
               paramKey (paramNames (desugarQuery query)) k
               ≠ paramKey (paramNames (desugarQuery query)) j) →
         paramTypes r !! paramKey (paramNames (desugarQuery query)) i
         = Some (Js.get (typeMap_of typeRows) (Js.number (oid later)))).
Proof.
  intros Hrun.
  destruct (getTypes_resolved_inv _ _ _ _ _ Hrun)
    as (d & q1 & typeRows & q2 & attributeRows & Hprobe & Htypes & _ & ->).
  exists d, q1, typeRows, q2. cbn [paramTypes].
  repeat split; [done | done | |].
  - intros i param Hi Hproto Hlast. by apply paramTypes_of_last.
  - intros i j earlier later _ _ Hj Hsame Hproto Hlast. rewrite Hsame.
    by apply paramTypes_of_last.
Qed.

Lemma getTypes_paramTypes_last_write_witness :
  ∃ (d : Described) (q1 : AsyncQueue) (typeRows : list (list string))
    (q2 : AsyncQueue),
    getTypeData (desugaredQuery (desugarQuery "SELECT :a, :b, :a")) "q"
      threeParamsQueue
    = (Resolved (inl d), q1)
    ∧ runQuery (typeQuery (map oid (params d) ++ map typeOID (fields d))) q1
      = (Resolved typeRows, q2)
    ∧ (∀ (i : nat) (param : Param),
         params d !! i = Some param →
         paramKey (paramNames (desugarQuery "SELECT :a, :b, :a")) i
         ≠ "__proto__" →
         (∀ j, (i < j < List.length (params d))%nat →
               paramKey (paramNames (desugarQuery "SELECT :a, :b, :a")) j
               ≠ paramKey (paramNames (desugarQuery "SELECT :a, :b, :a")) i) →
         paramTypes threeParamsResult
           !! paramKey (paramNames (desugarQuery "SELECT :a, :b, :a")) i
         = Some (Js.get (typeMap_of typeRows) (Js.number (oid param))))
    ∧ (∀ (i j : nat) (earlier later : Param),
         (i < j)%nat →
         params d !! i = Some earlier →
         params d !! j = Some later →
         paramKey (paramNames (desugarQuery "SELECT :a, :b, :a")) i
         = paramKey (paramNames (desugarQuery "SELECT :a, :b, :a")) j →
         paramKey (paramNames (desugarQuery "SELECT :a, :b, :a")) j
         ≠ "__proto__" →
         (∀ k, (j < k < List.length (params d))%nat →
               paramKey (paramNames (desugarQuery "SELECT :a, :b, :a")) k
               ≠ paramKey (paramNames (desugarQuery "SELECT :a, :b, :a")) j) →
         paramTypes threeParamsResult
           !! paramKey (paramNames (desugarQuery "SELECT :a, :b, :a")) i
         = Some (Js.get (typeMap_of typeRows) (Js.number (oid later)))).
Proof.
  apply (getTypes_paramTypes_last_write "SELECT :a, :b, :a" "q"
           threeParamsQueue
           (getTypes "SELECT :a, :b, :a" "q" threeParamsQueue).2
           threeParamsResult).
  vm_compute. reflexivity.
Defined.

(** X25: in no resolved run does [paramTypes] get a property of its own
    named [__proto__], whatever the placeholders are called and whatever
    the peer reports: a parameter recorded under that name is not
    written. *)
Theorem getTypes_paramTypes_without_proto (query statement : string)
    (q q' : AsyncQueue) (r : TQueryTypes) :
  getTypes query statement q = (Resolved (inl r), q') →
  paramTypes r !! "__proto__" = None.
Proof.
  intros Hrun.
  destruct (getTypes_resolved_inv _ _ _ _ _ Hrun)
    as (d & q1 & typeRows & q2 & attributeRows & _ & _ & _ & ->).
  cbn [paramTypes]. apply paramTypes_of_proto.
Qed.

Lemma getTypes_paramTypes_without_proto_witness :
  paramTypes {| paramTypes := ∅; returnTypes := [] |} !! "__proto__" = None.
Proof.
  apply (getTypes_paramTypes_without_proto protoText "q" protoQueue
           (getTypes protoText "q" protoQueue).2
           {| paramTypes := ∅; returnTypes := [] |}).
  vm_compute. reflexivity.
Defined.
